(** * Polargraph converter: wave parameters, row paths and the SVG document

    A shallow embedding of [polargraph_convert.py] (class
    [PolargraphConverter]).

    Number model.  Python's [float] is read as a real number ([R] of the
    Standard Library) and [math.sin] as the real sine [sin]; Python's [int]
    is [Z] for pixel values and thresholds and [nat] for the loop counters
    produced by [range].  Rounding error, infinities and NaN are therefore
    outside the model: every statement below is about the arithmetic the
    program text denotes.  Comparisons between floats are the decidable
    comparisons of [R] ([Rlt_dec], [Req_dec_T]). *)

From Stdlib Require Import Reals Lra Lia ZArith List String Ascii Bool.
From Stdlib Require Import Sorting.Sorted DecimalString.
From Stdlib Require DecimalNat DecimalFacts.
Import ListNotations.

Local Open Scope R_scope.

(** ** The converter object *)

(** The attributes set by [__init__]; no method assigns to them again. *)
Record PolargraphConverter : Type := mkConverter {
  line_spacing : R;
  max_amplitude : R;
  organic_mode : bool;
  contrast_factor : R;
  white_threshold : Z
}.

(** Class constants. *)
Definition MIN_DARKNESS_THRESHOLD : R := 0.02.
Definition FREQUENCY_BASE : R := 0.5.
Definition FREQUENCY_SCALE : R := 1.5.
Definition ORGANIC_X_FREQUENCY : R := 0.05.
Definition ORGANIC_Y_FREQUENCY : R := 0.1.
Definition ORGANIC_NOISE_SCALE : R := 0.2.
Definition ORGANIC_AMPLITUDE_VAR : R := 0.3.
Definition ORGANIC_FREQUENCY_VAR : R := 0.2.
Definition WAVE_FREQUENCY_SCALE : R := 0.1.

(** ** Wave parameters *)

(** [calculate_wave_params(self, darkness, x, row)]. *)
Definition calculate_wave_params
    (self : PolargraphConverter) (darkness : R) (x row : nat) : R * R :=
  if Rlt_dec darkness MIN_DARKNESS_THRESHOLD then (0, 0)
  else
    let amplitude := max_amplitude self * darkness in
    let frequency_factor := FREQUENCY_BASE + darkness * FREQUENCY_SCALE in
    if organic_mode self then
      let organic_noise :=
        sin (INR x * ORGANIC_X_FREQUENCY + INR row * ORGANIC_Y_FREQUENCY)
        * ORGANIC_NOISE_SCALE in
      (amplitude * (1 + organic_noise * ORGANIC_AMPLITUDE_VAR),
       frequency_factor * (1 + organic_noise * ORGANIC_FREQUENCY_VAR))
    else (amplitude, frequency_factor).

(** ** The image *)

(** A grayscale PIL image as the converter reads it: [img.size] and the pixel
    access object returned by [img.load()].  Indexing outside the image
    raises [IndexError], modelled by [None]. *)
Record Image : Type := mkImage {
  size : nat * nat;
  pixel_data : nat -> nat -> Z
}.

Definition load (img : Image) (x row : nat) : option Z :=
  let '(width, height) := size img in
  if ((x <? width)%nat && (row <? height)%nat)%bool
  then Some (pixel_data img x row)
  else None.

(** ** Exceptions and loops *)

(** A raised exception aborts the computation: the option monad. *)
Definition bind {A B : Type} (m : option A) (k : A -> option B) : option B :=
  match m with
  | Some a => k a
  | None => None
  end.

Notation "x <- m ;; k" := (bind m (fun x => k))
  (at level 61, m at next level, right associativity).

(** [for i in xs: body], the loop body transforming the mutable state [s]. *)
Fixpoint for_each {S : Type} (body : S -> nat -> option S)
    (xs : list nat) (s : S) : option S :=
  match xs with
  | [] => Some s
  | i :: rest => s' <- body s i ;; for_each body rest s'
  end.

(** ** Row paths *)

(** A point is the tuple [(x, y)]: [x] the integer column, [y] a float. *)
Abbreviation Point := (nat * R)%type.

(** [points[-1][1]], when [points] is not empty. *)
Definition last_y (points : list Point) : option R :=
  match rev points with
  | [] => None
  | p :: _ => Some (snd p)
  end.

(** [len(points) == 0 or points[-1][1] != y_base]. *)
Definition needs_flat_point (points : list Point) (y_base : R) : bool :=
  match last_y points with
  | None => true
  | Some y => if Req_dec_T y y_base then false else true
  end.

(** The y coordinate computed for a pixel below the white threshold. *)
Definition wave_y (self : PolargraphConverter) (brightness : Z)
    (x row : nat) (y_base : R) : R :=
  let darkness := 1 - IZR brightness / 255 in
  let '(amplitude, frequency_factor) :=
    calculate_wave_params self darkness x row in
  let wave_offset :=
    amplitude * sin (INR x * frequency_factor * WAVE_FREQUENCY_SCALE) in
  y_base + wave_offset.

(** One iteration of the column loop of [generate_row_path]. *)
Definition row_step (self : PolargraphConverter)
    (pixels : nat -> nat -> option Z) (row : nat) (y_base : R)
    (points : list Point) (x : nat) : option (list Point) :=
  brightness <- pixels x row ;;
  if (brightness >=? white_threshold self)%Z then
    if needs_flat_point points y_base
    then Some (points ++ [(x, y_base)])
    else Some points
  else
    Some (points ++ [(x, wave_y self brightness x row y_base)]).

(** [generate_row_path(self, img, row, width)]. *)
Definition generate_row_path (self : PolargraphConverter) (img : Image)
    (row width : nat) : option (list Point) :=
  let pixels := load img in
  let y_base := INR row * line_spacing self in
  for_each (row_step self pixels row y_base) (seq 0 width) [].

(** ** Text *)

Definition dquote : string := String (ascii_of_nat 34) EmptyString.
Definition newline : string := String (ascii_of_nat 10) EmptyString.

(** [str(n)] for a non-negative integer. *)
Definition str_nat (n : nat) : string :=
  NilEmpty.string_of_uint (Nat.to_uint n).

(** Round to the nearest integer, ties to the even one. *)
Definition round_half_even (r : R) : Z :=
  let n := Int_part r in
  let f := frac_part r in
  if Rlt_dec f (1 / 2) then n
  else if Rlt_dec (1 / 2) f then (n + 1)%Z
  else if Z.even n then n else (n + 1)%Z.

(** What [format(v, ".2f")] keeps of [v]: its sign and the number of
    hundredths nearest to its magnitude. *)
Definition quantize_2f (v : R) : bool * Z :=
  (if Rlt_dec v 0 then true else false, round_half_even (Rabs v * 100)).

(** The real number a quantized value denotes. *)
Definition value_2f (q : bool * Z) : R :=
  let '(negative, hundredths) := q in
  if negative then - (IZR hundredths / 100) else IZR hundredths / 100.

Definition two_digits (k : nat) : string :=
  (NilEmpty.string_of_uint (Nat.to_uint (k / 10)) ++
   NilEmpty.string_of_uint (Nat.to_uint (k mod 10)))%string.

Definition render_2f (q : bool * Z) : string :=
  let '(negative, hundredths) := q in
  ((if negative then "-" else "") ++
   str_nat (Z.to_nat (hundredths / 100)) ++ "." ++
   two_digits (Z.to_nat (hundredths mod 100)))%string.

(** [f"{v:.2f}"]. *)
Definition format_2f (v : R) : string := render_2f (quantize_2f v).

(** ** Path commands *)

Definition move_command (p : Point) : string :=
  ("M " ++ format_2f (INR (fst p)) ++ "," ++ format_2f (snd p))%string.

Definition line_command (p : Point) : string :=
  ("L " ++ format_2f (INR (fst p)) ++ "," ++ format_2f (snd p))%string.

(** [points_to_path_commands(self, points)]. *)
Definition points_to_path_commands (points : list Point) : string :=
  match points with
  | [] => ""%string
  | first :: remaining =>
      String.concat " " (move_command first :: map line_command remaining)
  end.

(** ** The document *)

Definition xml_declaration : string :=
  ("<?xml version=" ++ dquote ++ "1.0" ++ dquote ++
   " encoding=" ++ dquote ++ "UTF-8" ++ dquote ++ "?>")%string.

(** The [<svg ...>] line, given the texts of the width and of the height. *)
Definition svg_open_tag (width_text height_text : string) : string :=
  ("<svg xmlns=" ++ dquote ++ "http://www.w3.org/2000/svg" ++ dquote ++ " " ++
   "width=" ++ dquote ++ width_text ++ dquote ++
   " height=" ++ dquote ++ height_text ++ dquote ++ " " ++
   "viewBox=" ++ dquote ++ "0 0 " ++ width_text ++ " " ++ height_text ++
   dquote ++ ">")%string.

Definition group_open_tag : string :=
  ("  <g id=" ++ dquote ++ "polargraph-paths" ++ dquote ++ " " ++
   "stroke=" ++ dquote ++ "black" ++ dquote ++
   " stroke-width=" ++ dquote ++ "0.5" ++ dquote ++
   " fill=" ++ dquote ++ "none" ++ dquote ++ " " ++
   "stroke-linecap=" ++ dquote ++ "round" ++ dquote ++
   " stroke-linejoin=" ++ dquote ++ "round" ++ dquote ++ ">")%string.

Definition path_element (path_d : string) : string :=
  ("    <path d=" ++ dquote ++ path_d ++ dquote ++ "/>")%string.

(** One iteration of the row loop of [generate_svg]. *)
Definition svg_row_step (self : PolargraphConverter) (img : Image)
    (width : nat) (svg_lines : list string) (row : nat)
    : option (list string) :=
  points <- generate_row_path self img row width ;;
  match points with
  | [] => Some svg_lines
  | _ :: _ =>
      let path_d := points_to_path_commands points in
      if String.eqb path_d "" then Some svg_lines
      else Some (svg_lines ++ [path_element path_d])
  end.

(** The list [svg_lines] of [generate_svg] when the file is opened. *)
Definition svg_document_lines (self : PolargraphConverter) (img : Image)
    : option (list string) :=
  let '(width, height) := size img in
  let svg_height := INR height * line_spacing self in
  let svg_lines :=
    [ xml_declaration;
      svg_open_tag (str_nat width) (format_2f svg_height);
      group_open_tag ] in
  svg_lines <- for_each (svg_row_step self img width) (seq 0 height) svg_lines ;;
  Some (svg_lines ++ ["  </g>"; "</svg>"]%string).

(** The files of the machine: the text stored under each path. *)
Definition FileSystem : Type := string -> option string.

Definition write_text (fs : FileSystem) (path text : string) : FileSystem :=
  fun p => if String.eqb p path then Some text else fs p.

(** [generate_svg(self, img, output_path)]. *)
Definition generate_svg (self : PolargraphConverter) (img : Image)
    (output_path : string) (fs : FileSystem) : option FileSystem :=
  svg_lines <- svg_document_lines self img ;;
  Some (write_text fs output_path (String.concat newline svg_lines)).

(** ** Reading a document back *)

Definition is_path_element (line : string) : bool :=
  String.prefix "    <path d=" line.

Definition count_path_elements (svg_lines : list string) : nat :=
  List.length (filter is_path_element svg_lines).

(** The x coordinates of a path. *)
Definition xs_of (points : list Point) : list nat := map fst points.

(** ** Fixed-point texts *)

Definition is_digit (c : ascii) : bool :=
  ((48 <=? nat_of_ascii c)%nat && (nat_of_ascii c <=? 57)%nat)%bool.

Fixpoint all_digits (s : string) : bool :=
  match s with
  | EmptyString => true
  | String c rest => (is_digit c && all_digits rest)%bool
  end.

(** A text with exactly two fractional digits: an optional minus sign, one
    or more digits, a point, two digits. *)
Definition two_fractional_digits (s : string) : Prop :=
  exists sign whole d1 d2,
    s = (sign ++ whole ++ "." ++ String d1 (String d2 ""))%string /\
    (sign = ""%string \/ sign = "-"%string) /\
    whole <> ""%string /\ all_digits whole = true /\
    is_digit d1 = true /\ is_digit d2 = true.

(** ** Reading a fixed-point text back *)

Definition digit_value (c : ascii) : nat := nat_of_ascii c - 48.

(** The text before the first point and the text after it. *)
Fixpoint split_at_point (s : string) : option (string * string) :=
  match s with
  | EmptyString => None
  | String c rest =>
      if Ascii.eqb c "." then Some (EmptyString, rest)
      else match split_at_point rest with
           | Some (whole, fraction) => Some (String c whole, fraction)
           | None => None
           end
  end.

Definition parse_whole (s : string) : option nat :=
  match s with
  | EmptyString => None
  | String _ _ => option_map Nat.of_uint (NilEmpty.uint_of_string s)
  end.

Definition parse_fraction_2 (s : string) : option nat :=
  match s with
  | String d1 (String d2 EmptyString) =>
      if (is_digit d1 && is_digit d2)%bool
      then Some (10 * digit_value d1 + digit_value d2)%nat
      else None
  | _ => None
  end.

Definition parse_unsigned_2f (s : string) : option R :=
  match split_at_point s with
  | Some (whole, fraction) =>
      match parse_whole whole, parse_fraction_2 fraction with
      | Some w, Some f => Some (INR w + INR f / 100)
      | _, _ => None
      end
  | None => None
  end.

(** The number written by a text with two fractional digits. *)
Definition parse_2f (s : string) : option R :=
  match s with
  | EmptyString => None
  | String c rest =>
      if Ascii.eqb c "-" then option_map Ropp (parse_unsigned_2f rest)
      else parse_unsigned_2f s
  end.

(** ** Reading a path string back *)

Fixpoint has_char (c : ascii) (s : string) : bool :=
  match s with
  | EmptyString => false
  | String c' rest => (Ascii.eqb c' c || has_char c rest)%bool
  end.

(** [s.split(sep)] for a separator of one character. *)
Fixpoint split_on (sep : ascii) (s : string) : list string :=
  match s with
  | EmptyString => [EmptyString]
  | String c rest =>
      if Ascii.eqb c sep then EmptyString :: split_on sep rest
      else match split_on sep rest with
           | [] => [String c EmptyString]
           | token :: tokens => String c token :: tokens
           end
  end.

(** The two numbers of a text [x,y]. *)
Definition parse_pair (s : string) : option (R * R) :=
  match split_on "," s with
  | [a; b] =>
      match parse_2f a, parse_2f b with
      | Some x, Some y => Some (x, y)
      | _, _ => None
      end
  | _ => None
  end.

(** The points of a token list [letter; x,y; L; x,y; ...]. *)
Fixpoint parse_commands (letter : string) (tokens : list string)
    : option (list (R * R)) :=
  match tokens with
  | [] => Some []
  | l :: xy :: rest =>
      if String.eqb l letter then
        match parse_pair xy, parse_commands "L" rest with
        | Some p, Some ps => Some (p :: ps)
        | _, _ => None
        end
      else None
  | _ => None
  end.

(** The points a path string [M x,y L x,y ...] goes through. *)
Definition parse_path (path_d : string) : option (list (R * R)) :=
  if String.eqb path_d "" then Some []
  else parse_commands "M" (split_on " " path_d).

(** The text [x,y] of a point, and the tokens of a path string. *)
Definition pair_text (p : Point) : string :=
  (format_2f (INR (fst p)) ++ "," ++ format_2f (snd p))%string.

Definition path_tokens (points : list Point) : list string :=
  match points with
  | [] => []
  | first :: remaining =>
      "M"%string :: pair_text first
        :: flat_map (fun q => ["L"%string; pair_text q]) remaining
  end.

(** ** The program around the converter *)

(** What the program calls and this file does not define: Pillow's
    [Image.open] (reading and decoding the file at a path, or raising with a
    message), [ImageOps.grayscale], [ImageEnhance.Contrast(img).enhance]
    and Python's [str] on a float. *)
Record Library : Type := mkLibrary {
  picture : Type;
  image_open : FileSystem -> string -> picture + string;
  grayscale : picture -> Image;
  enhance : Image -> R -> Image;
  str_float : R -> string
}.

(** The files and the two output streams.  Every path can be written. *)
Record World : Type := mkWorld {
  files : FileSystem;
  stdout : list string;
  stderr : list string
}.

Definition print (line : string) (w : World) : World :=
  mkWorld (files w) (stdout w ++ [line]) (stderr w).

Definition print_stderr (line : string) (w : World) : World :=
  mkWorld (files w) (stdout w) (stderr w ++ [line]).

(** A call returns a value or raises an exception with a message. *)
Inductive Result (A : Type) : Type :=
  | Returned (value : A)
  | Raised (message : string).

Arguments Returned {A} value.
Arguments Raised {A} message.

(** [load_and_preprocess_image(self, image_path)]. *)
Definition load_and_preprocess_image (lib : Library)
    (self : PolargraphConverter) (image_path : string) (fs : FileSystem)
    : Result Image :=
  match image_open lib fs image_path with
  | inr message => Raised message
  | inl img =>
      let img := grayscale lib img in
      let img := enhance lib img (contrast_factor self) in
      Returned img
  end.

Definition str_bool (b : bool) : string := if b then "True" else "False".

(** [convert(self, input_path, output_path)]. *)
Definition convert (lib : Library) (self : PolargraphConverter)
    (input_path output_path : string) (w : World) : World * Result unit :=
  let w := print ("Loading image: " ++ input_path) w in
  match load_and_preprocess_image lib self input_path (files w) with
  | Raised message => (w, Raised message)
  | Returned img =>
      let w := print ("Image size: " ++ str_nat (fst (size img)) ++ "x"
                        ++ str_nat (snd (size img)) ++ " pixels") w in
      let w := print "Parameters:" w in
      let w := print ("  - Line spacing: "
                        ++ str_float lib (line_spacing self)) w in
      let w := print ("  - Max amplitude: "
                        ++ str_float lib (max_amplitude self)) w in
      let w := print ("  - Organic mode: "
                        ++ str_bool (organic_mode self)) w in
      let w := print ("  - Contrast factor: "
                        ++ str_float lib (contrast_factor self)) w in
      let w := print "Generating SVG paths..." w in
      match generate_svg self img output_path (files w) with
      | None => (w, Raised "image index out of range")
      | Some fs =>
          let w := mkWorld fs (stdout w) (stderr w) in
          let w := print ("SVG saved to: " ++ output_path) w in
          (w, Returned tt)
      end
  end.

(** The namespace returned by [parse_args]. *)
Record Args : Type := mkArgs {
  input : string;
  output : string;
  arg_line_spacing : R;
  amplitude : R;
  organic : bool;
  contrast : R;
  arg_white_threshold : Z
}.

(** [main()], given the namespace [args] returned by [parse_args()]; the
    result is the exit status of the process. *)
Definition main (lib : Library) (args : Args) (w : World) : World * Z :=
  match files w (input args) with
  | None =>
      (print_stderr ("Error: Input file not found: " ++ input args) w, 1%Z)
  | Some _ =>
      let converter :=
        mkConverter (arg_line_spacing args) (amplitude args) (organic args)
                    (contrast args) (arg_white_threshold args) in
      match convert lib converter (input args) (output args) w with
      | (w, Returned _) => (w, 0%Z)
      | (w, Raised e) =>
          (print_stderr ("Error during conversion: " ++ e) w, 1%Z)
      end
  end.

(** ** Example inputs *)

(** The converter built with the default arguments of [__init__]. *)
Definition default_converter : PolargraphConverter :=
  mkConverter 2.0 3.0 false 2.0 250.

(** An image of one row holding the given brightness values. *)
Definition one_row_image (row0 : list Z) : Image :=
  mkImage (List.length row0, 1%nat) (fun x _ => nth x row0 0%Z).

(** A converter whose white threshold is 255: only pure white is white. *)
Definition strict_white_converter : PolargraphConverter :=
  mkConverter 2.0 3.0 false 2.0 255.

(** White, then a pixel of brightness 254, then white. *)
Definition white_faint_white : Image := one_row_image [255; 254; 255]%Z.

(** White, black, white. *)
Definition white_black_white : Image := one_row_image [255; 0; 255]%Z.

(** Four white pixels. *)
Definition four_white : Image := one_row_image [255; 255; 255; 255]%Z.

(** Three black pixels. *)
Definition three_black : Image := one_row_image [0; 0; 0]%Z.

(** A converter with line spacing 1.234. *)
Definition odd_spacing_converter : PolargraphConverter :=
  mkConverter 1.234 3.0 false 2.0 250.

(** One black pixel. *)
Definition one_black : Image := one_row_image [0]%Z.

(** White, black, white in row 0 above a grey row. *)
Definition white_black_white_over_grey : Image :=
  mkImage (3%nat, 2%nat)
          (fun x row => if (row =? 0)%nat then nth x [255; 0; 255]%Z 0%Z
                        else 128%Z).

(** The default converter with another contrast factor. *)
Definition high_contrast_converter : PolargraphConverter :=
  mkConverter 2.0 3.0 false 3.5 250.

(** A white image of two rows. *)
Definition white_2x2 : Image := mkImage (2%nat, 2%nat) (fun _ _ => 255%Z).

(** An image of width 0. *)
Definition empty_image : Image := mkImage (0%nat, 3%nat) (fun _ _ => 0%Z).

(** A library that decodes the file holding the text P5 as four white
    pixels and refuses every other file. *)
Definition toy_library : Library :=
  mkLibrary Image
    (fun fs path =>
       match fs path with
       | Some content =>
           if String.eqb content "P5" then inl four_white
           else inr "cannot identify image file"%string
       | None => inr "No such file or directory"%string
       end)
    (fun img => img)
    (fun img _ => img)
    (fun _ => "?"%string).

(** A world with one image file and one file that is no image. *)
Definition toy_world : World :=
  mkWorld (fun p => if String.eqb p "in.pgm" then Some "P5"%string
                    else if String.eqb p "notes.txt" then Some "keep"%string
                    else None)
          [] [].

(** * Properties *)

(** ** Wave parameters *)

Lemma organic_factor_pos (t k : R) :
  0 <= k <= 1 -> 0 < 1 + sin t * ORGANIC_NOISE_SCALE * k.
Proof.
  intros Hk. unfold ORGANIC_NOISE_SCALE.
  pose proof (SIN_bound t) as [Hlo Hhi].
  assert (-1 <= sin t * k <= 1) by nra.
  lra.
Qed.

(** The first branch: below the threshold nothing else is computed. *)
Lemma wave_params_below_threshold
    (self : PolargraphConverter) (darkness : R) (x row : nat) :
  darkness < MIN_DARKNESS_THRESHOLD ->
  calculate_wave_params self darkness x row = (0, 0).
Proof.
  intros Hd. unfold calculate_wave_params.
  destruct (Rlt_dec darkness MIN_DARKNESS_THRESHOLD) as [_ | Hn];
    [reflexivity | contradiction].
Qed.

(** The result past the threshold test when organic mode is off. *)
Lemma wave_params_organic_off
    (self : PolargraphConverter) (darkness : R) (x row : nat) :
  organic_mode self = false ->
  ~ darkness < MIN_DARKNESS_THRESHOLD ->
  calculate_wave_params self darkness x row =
    (max_amplitude self * darkness,
     FREQUENCY_BASE + darkness * FREQUENCY_SCALE).
Proof.
  intros Horg Hd. unfold calculate_wave_params.
  destruct (Rlt_dec darkness MIN_DARKNESS_THRESHOLD) as [Hlt | _];
    [contradiction | ].
  rewrite Horg. reflexivity.
Qed.

(** C4. Below the darkness threshold 0.02 the result is (0, 0), whatever the
    position and the configuration. *)
Theorem calculate_wave_params_nearly_white
    (self : PolargraphConverter) (darkness : R) (x row : nat) :
  darkness < 0.02 ->
  calculate_wave_params self darkness x row = (0, 0).
Proof. apply wave_params_below_threshold. Qed.

Lemma calculate_wave_params_nearly_white_witness :
  0.01 < 0.02 /\
  calculate_wave_params (mkConverter 2.0 3.0 true 2.0 250) 0.01 7 4 = (0, 0).
Proof.
  split; [lra | ].
  apply (calculate_wave_params_nearly_white
           (mkConverter 2.0 3.0 true 2.0 250) 0.01 7 4).
  lra.
Defined.

(** C1. With organic mode off and darkness in [0.02, 1.0] the result is
    exactly (max_amplitude * darkness, 0.5 + 1.5 * darkness). *)
Theorem calculate_wave_params_plain
    (self : PolargraphConverter) (darkness : R) (x row : nat) :
  organic_mode self = false ->
  0.02 <= darkness <= 1.0 ->
  calculate_wave_params self darkness x row =
    (max_amplitude self * darkness, 0.5 + 1.5 * darkness).
Proof.
  intros Horg [Hlo _].
  rewrite wave_params_organic_off;
    [ | exact Horg | unfold MIN_DARKNESS_THRESHOLD; lra].
  f_equal. unfold FREQUENCY_BASE, FREQUENCY_SCALE. ring.
Qed.

Lemma calculate_wave_params_plain_witness :
  calculate_wave_params default_converter 1.0 2 0 = (3.0 * 1.0, 0.5 + 1.5 * 1.0).
Proof.
  apply (calculate_wave_params_plain default_converter 1.0 2 0);
    [reflexivity | lra].
Defined.

(** The frequency factor is never negative on darkness in [0, 1]. *)
Lemma frequency_factor_nonneg
    (self : PolargraphConverter) (darkness : R) (x row : nat) :
  0 <= darkness <= 1 ->
  0 <= snd (calculate_wave_params self darkness x row).
Proof.
  intros [Hlo Hhi]. unfold calculate_wave_params.
  destruct (Rlt_dec darkness MIN_DARKNESS_THRESHOLD) as [_ | _];
    [simpl; lra | ].
  assert (Hf : 0 < FREQUENCY_BASE + darkness * FREQUENCY_SCALE)
    by (unfold FREQUENCY_BASE, FREQUENCY_SCALE; lra).
  destruct (organic_mode self); simpl; [ | lra].
  apply Rlt_le, Rmult_lt_0_compat; [exact Hf | ].
  apply organic_factor_pos. unfold ORGANIC_FREQUENCY_VAR. lra.
Qed.

(** The amplitude has the sign of [max_amplitude]. *)
Lemma amplitude_nonneg
    (self : PolargraphConverter) (darkness : R) (x row : nat) :
  0 <= max_amplitude self ->
  0 <= darkness <= 1 ->
  0 <= fst (calculate_wave_params self darkness x row).
Proof.
  intros Hmax [Hlo Hhi]. unfold calculate_wave_params.
  destruct (Rlt_dec darkness MIN_DARKNESS_THRESHOLD) as [_ | _];
    [simpl; lra | ].
  assert (Ha : 0 <= max_amplitude self * darkness)
    by (apply Rmult_le_pos; assumption).
  destruct (organic_mode self); simpl; [ | exact Ha].
  apply Rmult_le_pos; [exact Ha | ].
  apply Rlt_le, organic_factor_pos. unfold ORGANIC_AMPLITUDE_VAR. lra.
Qed.

(** C5, as the code has it. On darkness in [0, 1] the frequency factor is
    never negative, and the amplitude is never negative when [max_amplitude]
    is not. *)
Theorem calculate_wave_params_nonneg
    (self : PolargraphConverter) (darkness : R) (x row : nat) :
  0 <= darkness <= 1 ->
  0 <= snd (calculate_wave_params self darkness x row) /\
  (0 <= max_amplitude self ->
   0 <= fst (calculate_wave_params self darkness x row)).
Proof.
  intros Hd. split.
  - apply frequency_factor_nonneg; exact Hd.
  - intros Hmax. apply amplitude_nonneg; assumption.
Qed.

Lemma calculate_wave_params_nonneg_witness :
  0 <= snd (calculate_wave_params (mkConverter 2.0 3.0 true 2.0 250) 0.5 3 1) /\
  0 <= fst (calculate_wave_params (mkConverter 2.0 3.0 true 2.0 250) 0.5 3 1).
Proof.
  destruct (calculate_wave_params_nonneg
              (mkConverter 2.0 3.0 true 2.0 250) 0.5 3 1) as [Hf Ha];
    [lra | ].
  split; [exact Hf | apply Ha; simpl; lra].
Defined.

(** C5 as stated fails: a negative [max_amplitude] gives a negative
    amplitude at darkness 1. *)
Lemma calculate_wave_params_negative_amplitude :
  calculate_wave_params (mkConverter 2.0 (-3.0) false 2.0 250) 1 0 0
    = (-3.0 * 1, 0.5 + 1.5 * 1) /\
  0 <= 1 <= 1 /\
  fst (calculate_wave_params (mkConverter 2.0 (-3.0) false 2.0 250) 1 0 0) < 0.
Proof.
  assert (E : calculate_wave_params (mkConverter 2.0 (-3.0) false 2.0 250) 1 0 0
              = (-3.0 * 1, 0.5 + 1.5 * 1)).
  { unfold calculate_wave_params.
    destruct (Rlt_dec 1 MIN_DARKNESS_THRESHOLD) as [Hlt | _].
    - unfold MIN_DARKNESS_THRESHOLD in Hlt. lra.
    - simpl. f_equal. unfold FREQUENCY_BASE, FREQUENCY_SCALE. ring. }
  split; [exact E | ]. split; [lra | ].
  rewrite E. simpl. lra.
Qed.

(** ** Loops *)

Lemma for_each_app {S : Type} (body : S -> nat -> option S)
    (xs ys : list nat) (s : S) :
  for_each body (xs ++ ys) s =
    (s' <- for_each body xs s ;; for_each body ys s').
Proof.
  revert s. induction xs as [ | i xs IH]; intros s; simpl; [reflexivity | ].
  destruct (body s i) as [s' | ]; simpl; [apply IH | reflexivity].
Qed.

(** A loop whose body never raises runs to its end. *)
Lemma for_each_total {S : Type} (body : S -> nat -> option S)
    (xs : list nat) :
  (forall s i, In i xs -> exists s', body s i = Some s') ->
  forall s, exists s', for_each body xs s = Some s'.
Proof.
  induction xs as [ | i xs IH]; intros Hbody s; simpl.
  - exists s. reflexivity.
  - destruct (Hbody s i (or_introl eq_refl)) as [s1 E1]. rewrite E1. simpl.
    apply IH. intros s2 j Hj. apply Hbody. right. exact Hj.
Qed.

(** ** The last point *)

Lemma last_y_nil : last_y [] = None.
Proof. reflexivity. Qed.

Lemma last_y_snoc (points : list Point) (p : Point) :
  last_y (points ++ [p]) = Some (snd p).
Proof. unfold last_y. rewrite rev_unit. reflexivity. Qed.

Lemma needs_flat_point_nil (y_base : R) : needs_flat_point [] y_base = true.
Proof. reflexivity. Qed.

Lemma needs_flat_point_snoc (points : list Point) (p : Point) (y_base : R) :
  needs_flat_point (points ++ [p]) y_base = true <-> snd p <> y_base.
Proof.
  unfold needs_flat_point. rewrite last_y_snoc.
  destruct (Req_dec_T (snd p) y_base) as [E | N]; split; intros H;
    try reflexivity; try discriminate; [contradiction | exact N].
Qed.

Lemma needs_flat_point_at_base (points : list Point) (y_base : R) :
  last_y points = Some y_base -> needs_flat_point points y_base = false.
Proof.
  intros E. unfold needs_flat_point. rewrite E.
  destruct (Req_dec_T y_base y_base) as [_ | N];
    [reflexivity | contradiction N; reflexivity].
Qed.

(** ** One pixel *)

Section RowStep.

Variable self : PolargraphConverter.
Variable pixels : nat -> nat -> option Z.
Variable row : nat.
Variable y_base : R.

Lemma row_step_white (points : list Point) (x : nat) (b : Z) :
  pixels x row = Some b -> (b >= white_threshold self)%Z ->
  row_step self pixels row y_base points x =
    Some (if needs_flat_point points y_base
          then points ++ [(x, y_base)] else points).
Proof.
  intros E Hb. unfold row_step. rewrite E. simpl.
  replace (b >=? white_threshold self)%Z with true
    by (symmetry; apply Z.geb_le; lia).
  destruct (needs_flat_point points y_base); reflexivity.
Qed.

Lemma row_step_dark (points : list Point) (x : nat) (b : Z) :
  pixels x row = Some b -> (b < white_threshold self)%Z ->
  row_step self pixels row y_base points x = Some (points ++ [(x, wave_y self b x row y_base)]).
Proof.
  intros E Hb. unfold row_step. rewrite E. simpl.
  replace (b >=? white_threshold self)%Z with false; [reflexivity | ].
  symmetry. apply Bool.not_true_is_false. intros H.
  apply Z.geb_le in H. lia.
Qed.

(** A step appends at most one point, and its column is the current one. *)
Lemma row_step_cases (points points' : list Point) (x : nat) :
  row_step self pixels row y_base points x = Some points' ->
  points' = points \/ exists y, points' = points ++ [(x, y)].
Proof.
  unfold row_step. destruct (pixels x row) as [b | ]; simpl;
    [ | discriminate].
  destruct (b >=? white_threshold self)%Z.
  - destruct (needs_flat_point points y_base); intros [= <-];
      [right; eexists; reflexivity | left; reflexivity].
  - intros [= <-]. right. eexists. reflexivity.
Qed.

Lemma row_step_defined (points : list Point) (x : nat) (b : Z) :
  pixels x row = Some b -> exists points',
    row_step self pixels row y_base points x = Some points'.
Proof.
  intros E. unfold row_step. rewrite E. simpl.
  destruct (b >=? white_threshold self)%Z;
    [destruct (needs_flat_point points y_base) | ]; eexists; reflexivity.
Qed.

(** What the columns [k, k + n) add to the points collected so far. *)
Lemma row_loop_extends (n k : nat) (points path : list Point) :
  for_each (row_step self pixels row y_base) (seq k n) points = Some path ->
  exists extra,
    path = points ++ extra /\
    StronglySorted lt (xs_of extra) /\
    Forall (fun i => (k <= i < k + n)%nat) (xs_of extra) /\
    (List.length extra <= n)%nat.
Proof.
  revert k points. induction n as [ | n IH]; intros k points; simpl.
  - intros [= <-]. exists []. rewrite app_nil_r.
    repeat split; simpl; auto; constructor.
  - destruct (row_step self pixels row y_base points k) as [points1 | ] eqn:E1; simpl;
      [ | discriminate].
    intros Hrest. destruct (IH _ _ Hrest) as (extra & -> & Hs & Hr & Hl).
    assert (Hr' : Forall (fun i => (k <= i < k + S n)%nat) (xs_of extra)).
    { eapply Forall_impl; [ | exact Hr]. simpl. intros i Hi. lia. }
    destruct (row_step_cases _ _ _ E1) as [-> | [y ->]].
    + exists extra. repeat split; auto.
    + exists ((k, y) :: extra). rewrite <- app_assoc. simpl.
      repeat split; auto.
      * constructor; [exact Hs | ].
        eapply Forall_impl; [ | exact Hr]. simpl. intros i Hi. lia.
      * constructor; [lia | exact Hr'].
      * lia.
Qed.

(** Over pixels that are all below the threshold every column adds its
    point. *)
Lemma row_loop_all_dark (n k : nat) (points path : list Point) :
  (forall x b, (k <= x < k + n)%nat -> pixels x row = Some b ->
               (b < white_threshold self)%Z) ->
  for_each (row_step self pixels row y_base) (seq k n) points = Some path ->
  xs_of path = xs_of points ++ seq k n.
Proof.
  revert k points. induction n as [ | n IH]; intros k points Hdark; simpl.
  - intros [= <-]. rewrite app_nil_r. reflexivity.
  - destruct (pixels k row) as [b | ] eqn:Eb.
    + rewrite (row_step_dark points k b Eb) by (apply (Hdark k); [lia | exact Eb]).
      simpl. intros Hrest. apply IH in Hrest.
      * rewrite Hrest. unfold xs_of. rewrite map_app, <- app_assoc.
        reflexivity.
      * intros x b' Hx. apply Hdark. lia.
    + unfold row_step. rewrite Eb. simpl. discriminate.
Qed.

(** Over pixels that are all at or above the threshold nothing is added
    once the last point sits on the base line. *)
Lemma row_loop_all_white (n k : nat) (points : list Point) :
  (forall x, (k <= x < k + n)%nat ->
     exists b, pixels x row = Some b /\ (b >= white_threshold self)%Z) ->
  last_y points = Some y_base ->
  for_each (row_step self pixels row y_base) (seq k n) points = Some points.
Proof.
  revert k. induction n as [ | n IH]; intros k Hwhite Hlast; simpl;
    [reflexivity | ].
  destruct (Hwhite k) as (b & Eb & Hb); [lia | ].
  rewrite (row_step_white points k b Eb Hb).
  rewrite (needs_flat_point_at_base _ _ Hlast). simpl.
  apply IH; [ | exact Hlast]. intros x Hx. apply Hwhite. lia.
Qed.

End RowStep.

(** ** Rows *)

Lemma load_in_range (img : Image) (x row : nat) :
  (x < fst (size img))%nat -> (row < snd (size img))%nat ->
  load img x row = Some (pixel_data img x row).
Proof.
  unfold load. destruct (size img) as [w h]. simpl. intros Hx Hr.
  apply Nat.ltb_lt in Hx, Hr. rewrite Hx, Hr. reflexivity.
Qed.

Lemma load_some (img : Image) (x row : nat) (b : Z) :
  load img x row = Some b ->
  (x < fst (size img))%nat /\ (row < snd (size img))%nat /\
  b = pixel_data img x row.
Proof.
  unfold load. destruct (size img) as [w h]. simpl.
  destruct (x <? w)%nat eqn:Ex; destruct (row <? h)%nat eqn:Er; simpl;
    try discriminate.
  intros [= <-]. apply Nat.ltb_lt in Ex, Er. auto.
Qed.

(** Inside the image [generate_row_path] raises nothing. *)
Lemma generate_row_path_total (self : PolargraphConverter) (img : Image)
    (row width : nat) :
  (row < snd (size img))%nat -> (width <= fst (size img))%nat ->
  exists path, generate_row_path self img row width = Some path.
Proof.
  intros Hr Hw. unfold generate_row_path. apply for_each_total.
  intros points x Hx. apply in_seq in Hx.
  apply (row_step_defined self (load img) row _ points x (pixel_data img x row)).
  apply load_in_range; [lia | exact Hr].
Qed.

(** The loop of [generate_row_path] cut at column [x]. *)
Lemma generate_row_path_split (self : PolargraphConverter) (img : Image)
    (row width x : nat) (path : list Point) :
  generate_row_path self img row width = Some path -> (x < width)%nat ->
  exists before after,
    for_each (row_step self (load img) row (INR row * line_spacing self))
             (seq 0 x) [] = Some before /\
    row_step self (load img) row (INR row * line_spacing self) before x
      = Some after /\
    for_each (row_step self (load img) row (INR row * line_spacing self))
             (seq (S x) (width - S x)) after = Some path.
Proof.
  unfold generate_row_path. intros Hgen Hx.
  replace width with (x + S (width - S x))%nat in Hgen at 1 by lia.
  rewrite seq_app, for_each_app in Hgen. simpl in Hgen.
  destruct (for_each _ (seq 0 x) []) as [before | ]; simpl in Hgen;
    [ | discriminate].
  destruct (row_step _ _ _ _ before x) as [after | ] eqn:Estep;
    simpl in Hgen; [ | discriminate].
  exists before, after. auto.
Qed.

(** The point of a pixel below the threshold lies on the base line at
    column 0 and whenever its darkness is below 0.02. *)
Lemma wave_y_column_0 (self : PolargraphConverter) (b : Z) (row : nat)
    (y_base : R) :
  wave_y self b 0 row y_base = y_base.
Proof.
  unfold wave_y.
  destruct (calculate_wave_params self (1 - IZR b / 255) 0 row) as [a f].
  simpl INR. rewrite !Rmult_0_l, sin_0. ring.
Qed.

Lemma wave_y_nearly_white (self : PolargraphConverter) (b : Z) (x row : nat)
    (y_base : R) :
  1 - IZR b / 255 < 0.02 ->
  wave_y self b x row y_base = y_base.
Proof.
  intros Hd. unfold wave_y.
  rewrite (wave_params_below_threshold self _ x row Hd). ring.
Qed.

(** A pixel below the threshold whose darkness is below 0.02 has brightness
    at least 250. *)
Lemma nearly_white_brightness (b : Z) :
  1 - IZR b / 255 < 0.02 -> (250 <= b)%Z.
Proof.
  intros Hd. apply Z.lt_pred_le. simpl. apply lt_IZR. lra.
Qed.

(** A white pixel right after a pixel below the threshold: its column is in
    the path exactly when the point before it is off the base line, and then
    it is there as a flat point. *)
Lemma flat_point_after_dark (self : PolargraphConverter) (img : Image)
    (row width x : nat) (b b' : Z) (path : list Point) :
  generate_row_path self img row width = Some path ->
  (S x < width)%nat ->
  load img x row = Some b -> (b < white_threshold self)%Z ->
  load img (S x) row = Some b' -> (b' >= white_threshold self)%Z ->
  (wave_y self b x row (INR row * line_spacing self)
     <> INR row * line_spacing self ->
   In (S x, INR row * line_spacing self) path) /\
  (wave_y self b x row (INR row * line_spacing self)
     = INR row * line_spacing self ->
   ~ In (S x) (xs_of path)).
Proof.
  intros Hgen Hx Eb Hb Eb' Hb'.
  destruct (generate_row_path_split self img row width (S x) path Hgen Hx)
    as (mid & after & Hmid & Hstep & Hrest).
  rewrite seq_S, for_each_app in Hmid. simpl in Hmid.
  destruct (for_each _ (seq 0 x) []) as [before | ] eqn:Hbefore;
    simpl in Hmid; [ | discriminate].
  rewrite (row_step_dark self (load img) row _ before x b Eb Hb) in Hmid.
  simpl in Hmid. injection Hmid as <-.
  rewrite (row_step_white self (load img) row _ _ (S x) b' Eb' Hb') in Hstep.
  injection Hstep as <-.
  apply row_loop_extends in Hbefore.
  destruct Hbefore as (extra0 & E0 & _ & Hlow & _). simpl in E0. subst extra0.
  apply row_loop_extends in Hrest.
  destruct Hrest as (extra & -> & _ & Hhigh & _).
  split; intros Hy.
  - assert (Hn : needs_flat_point
                   (before ++ [(x, wave_y self b x row (INR row * line_spacing self))])
                   (INR row * line_spacing self) = true)
      by (apply needs_flat_point_snoc; exact Hy).
    rewrite Hn.
    apply in_or_app. left. apply in_or_app. right. left. reflexivity.
  - assert (Hn : needs_flat_point
                   (before ++ [(x, wave_y self b x row (INR row * line_spacing self))])
                   (INR row * line_spacing self) = false).
    { apply needs_flat_point_at_base. rewrite last_y_snoc. simpl.
      f_equal. exact Hy. }
    rewrite Hn. unfold xs_of. rewrite !map_app. simpl. intros Hin.
    apply in_app_or in Hin. destruct Hin as [Hin | Hin].
    + apply in_app_or in Hin. destruct Hin as [Hin | [Hin | []]]; [ | lia].
      rewrite Forall_forall in Hlow. apply Hlow in Hin. lia.
    + rewrite Forall_forall in Hhigh. apply Hhigh in Hin. lia.
Qed.

Lemma StronglySorted_lt_le (l : list nat) :
  StronglySorted lt l -> StronglySorted le l.
Proof.
  induction 1 as [ | a l Hs IH Hall]; constructor; [exact IH | ].
  eapply Forall_impl; [ | exact Hall]. simpl. intros i Hi. lia.
Qed.

(** The columns of a path strictly increase. *)
Lemma generate_row_path_increasing (self : PolargraphConverter) (img : Image)
    (row width : nat) (path : list Point) :
  generate_row_path self img row width = Some path ->
  StronglySorted lt (xs_of path) /\
  Forall (fun x => (x < width)%nat) (xs_of path).
Proof.
  unfold generate_row_path. intros Hgen.
  apply row_loop_extends in Hgen.
  destruct Hgen as (extra & -> & Hs & Hr & _). simpl. split; [exact Hs | ].
  eapply Forall_impl; [ | exact Hr]. simpl. intros i Hi. lia.
Qed.

(** C2. A row of width at least 1 whose pixels are all at or above the white
    threshold yields exactly one point, (0, row * line_spacing). *)
Theorem generate_row_path_all_white (self : PolargraphConverter) (img : Image)
    (row width : nat) :
  (1 <= width)%nat ->
  (forall x, (x < width)%nat ->
     exists b, load img x row = Some b /\ (b >= white_threshold self)%Z) ->
  generate_row_path self img row width
    = Some [(0%nat, INR row * line_spacing self)].
Proof.
  intros Hw Hwhite. unfold generate_row_path.
  destruct width as [ | n]; [lia | ]. cbn [seq for_each].
  destruct (Hwhite 0%nat) as (b & Eb & Hb); [lia | ].
  rewrite (row_step_white self (load img) row _ [] 0 b Eb Hb).
  rewrite needs_flat_point_nil. cbn [bind app].
  apply row_loop_all_white.
  - intros x Hx. apply Hwhite. lia.
  - reflexivity.
Qed.

Lemma four_white_pixels (x : nat) :
  (x < 4)%nat ->
  exists b, load four_white x 0 = Some b /\
            (b >= white_threshold default_converter)%Z.
Proof.
  intros Hx. exists 255%Z.
  destruct x as [ | [ | [ | [ | x]]]]; try lia;
    (split; [reflexivity | simpl; lia]).
Qed.

Lemma generate_row_path_all_white_witness :
  generate_row_path default_converter four_white 0 4
    = Some [(0%nat, INR 0 * line_spacing default_converter)].
Proof.
  apply (generate_row_path_all_white default_converter four_white 0 4);
    [lia | exact four_white_pixels].
Defined.

(** C6. A returned path has at most [width] points and its columns never
    decrease; when no pixel of the row reaches the white threshold its
    columns are 0, 1, ..., width - 1 in order.  Inside the image a path is
    returned. *)
Theorem generate_row_path_shape (self : PolargraphConverter) (img : Image)
    (row width : nat) :
  (forall path,
     generate_row_path self img row width = Some path ->
     (List.length path <= width)%nat /\
     StronglySorted le (xs_of path) /\
     ((forall x b, (x < width)%nat -> load img x row = Some b ->
                   (b < white_threshold self)%Z) ->
      List.length path = width /\ xs_of path = seq 0 width)) /\
  ((row < snd (size img))%nat -> (width <= fst (size img))%nat ->
   exists path, generate_row_path self img row width = Some path).
Proof.
  split; [ | apply generate_row_path_total].
  intros path Hgen. split; [ | split].
  - unfold generate_row_path in Hgen. apply row_loop_extends in Hgen.
    destruct Hgen as (extra & -> & _ & _ & Hl). exact Hl.
  - apply StronglySorted_lt_le.
    apply (generate_row_path_increasing self img row width path Hgen).
  - intros Hdark. unfold generate_row_path in Hgen.
    apply row_loop_all_dark in Hgen.
    + simpl in Hgen. split; [ | exact Hgen].
      assert (Hlen : List.length (xs_of path) = List.length path)
        by apply length_map.
      rewrite <- Hlen, Hgen. apply length_seq.
    + intros x b Hx. apply Hdark. lia.
Qed.

(** ** Two rows evaluated *)

(** A black pixel under the default converter: amplitude 3, frequency
    factor 2. *)
Lemma wave_y_black (x : nat) :
  wave_y default_converter 0 x 0 0 = 3 * sin (INR x * 0.2).
Proof.
  unfold wave_y.
  rewrite (wave_params_organic_off default_converter _ x 0);
    [ | reflexivity | unfold MIN_DARKNESS_THRESHOLD; lra].
  unfold WAVE_FREQUENCY_SCALE, FREQUENCY_BASE, FREQUENCY_SCALE. simpl.
  replace (INR x * (0.5 + (1 - 0 / 255) * 1.5) * 0.1) with (INR x * 0.2)
    by lra.
  lra.
Qed.

Lemma wave_y_black_column_1 :
  wave_y default_converter 0 1 0 0 = 3 * sin 0.2.
Proof. rewrite wave_y_black. simpl. f_equal. f_equal. lra. Qed.

(** The fully black row of three pixels: one point per column, on the sine
    wave of amplitude 3 and frequency factor 2. *)
Lemma three_black_path :
  generate_row_path default_converter three_black 0 3
    = Some [(0%nat, 3 * sin (INR 0 * 0.2)); (1%nat, 3 * sin (INR 1 * 0.2));
            (2%nat, 3 * sin (INR 2 * 0.2))].
Proof.
  unfold generate_row_path.
  replace (INR 0 * line_spacing default_converter) with 0 by (simpl; lra).
  cbn [seq for_each].
  rewrite (row_step_dark default_converter _ 0 0 _ 0 0);
    [ | reflexivity | simpl; lia].
  cbn [bind app].
  rewrite (row_step_dark default_converter _ 0 0 _ 1 0);
    [ | reflexivity | simpl; lia].
  cbn [bind app].
  rewrite (row_step_dark default_converter _ 0 0 _ 2 0);
    [ | reflexivity | simpl; lia].
  rewrite !wave_y_black. reflexivity.
Qed.

Lemma sin_02_pos : 0 < sin 0.2.
Proof.
  apply sin_gt_0; [lra | ]. pose proof PI2_1. lra.
Qed.

Lemma white_black_white_path :
  generate_row_path default_converter white_black_white 0 3
    = Some [(0%nat, 0); (1%nat, 3 * sin 0.2); (2%nat, 0)].
Proof.
  unfold generate_row_path.
  replace (INR 0 * line_spacing default_converter) with 0 by (simpl; lra).
  cbn [seq for_each].
  rewrite (row_step_white default_converter _ 0 0 [] 0 255);
    [ | reflexivity | simpl; lia].
  rewrite needs_flat_point_nil. cbn [bind app].
  rewrite (row_step_dark default_converter _ 0 0 _ 1 0);
    [ | reflexivity | simpl; lia].
  rewrite wave_y_black_column_1. cbn [bind app].
  rewrite (row_step_white default_converter _ 0 0 _ 2 255);
    [ | reflexivity | simpl; lia].
  assert (Hn : needs_flat_point ([(0%nat, 0)] ++ [(1%nat, 3 * sin 0.2)]) 0
               = true).
  { apply needs_flat_point_snoc. simpl. pose proof sin_02_pos. lra. }
  cbn [app] in Hn. rewrite Hn. reflexivity.
Qed.

Lemma white_faint_white_path :
  generate_row_path strict_white_converter white_faint_white 0 3
    = Some [(0%nat, 0); (1%nat, 0)].
Proof.
  unfold generate_row_path.
  replace (INR 0 * line_spacing strict_white_converter) with 0
    by (simpl; lra).
  cbn [seq for_each].
  rewrite (row_step_white strict_white_converter _ 0 0 [] 0 255);
    [ | reflexivity | simpl; lia].
  rewrite needs_flat_point_nil. cbn [bind app].
  rewrite (row_step_dark strict_white_converter _ 0 0 _ 1 254);
    [ | reflexivity | simpl; lia].
  rewrite wave_y_nearly_white by lra. cbn [bind app].
  rewrite (row_step_white strict_white_converter _ 0 0 _ 2 255);
    [ | reflexivity | simpl; lia].
  rewrite (needs_flat_point_at_base [(0%nat, 0); (1%nat, 0)] 0);
    reflexivity.
Qed.

(** ** White pixels after a pixel below the threshold *)

(** C3, as the code has it. A white pixel that follows a pixel below the
    threshold gets a flat point (x, y_base) when the point emitted just
    before it is off the base line; when that point sits on the base line the
    white pixel gets no point.  White pixels further left play no part. *)
Theorem flat_point_after_transition (self : PolargraphConverter)
    (img : Image) (row width x : nat) (b b' : Z) (path : list Point) :
  generate_row_path self img row width = Some path ->
  (S x < width)%nat ->
  load img x row = Some b -> (b < white_threshold self)%Z ->
  load img (S x) row = Some b' -> (b' >= white_threshold self)%Z ->
  (wave_y self b x row (INR row * line_spacing self)
     <> INR row * line_spacing self ->
   In (S x, INR row * line_spacing self) path) /\
  (wave_y self b x row (INR row * line_spacing self)
     = INR row * line_spacing self ->
   ~ In (S x) (xs_of path)).
Proof. apply flat_point_after_dark. Qed.

Lemma flat_point_after_transition_witness :
  In (2%nat, INR 0 * line_spacing default_converter)
     [(0%nat, 0); (1%nat, 3 * sin 0.2); (2%nat, 0)].
Proof.
  destruct (flat_point_after_transition default_converter white_black_white
              0 3 1 0 255 _ white_black_white_path) as [Hoff _];
    [lia | reflexivity | simpl; lia | reflexivity | simpl; lia | ].
  apply Hoff.
  replace (INR 0 * line_spacing default_converter) with 0 by (simpl; lra).
  rewrite wave_y_black_column_1. pose proof sin_02_pos. lra.
Defined.

(** C3 as stated fails: with white threshold 255 the row 255, 254, 255 is
    white, not white, white; the point of the middle pixel sits on the base
    line and the third pixel gets no point. *)
Lemma white_faint_white_no_flat_point :
  load white_faint_white 0 0 = Some 255%Z /\
  load white_faint_white 1 0 = Some 254%Z /\
  load white_faint_white 2 0 = Some 255%Z /\
  white_threshold strict_white_converter = 255%Z /\
  generate_row_path strict_white_converter white_faint_white 0 3
    = Some [(0%nat, 0); (1%nat, 0)] /\
  ~ In 2%nat (xs_of [(0%nat, 0); (1%nat, 0)]).
Proof.
  repeat split; try reflexivity.
  - exact white_faint_white_path.
  - simpl. intros [H | [H | []]]; discriminate.
Qed.

(** C7. When the pixel before a white pixel is below the threshold and
    stands at column 0, or has darkness below 0.02, its point sits exactly on
    the base line and the white pixel appends nothing; a white pixel appends
    nothing after any point that sits on the base line; and darkness below
    0.02 under the threshold needs a threshold above 250. *)
Theorem white_after_base_line_point (self : PolargraphConverter)
    (img : Image) (row width x : nat) (b b' : Z) (path : list Point) :
  generate_row_path self img row width = Some path ->
  (S x < width)%nat ->
  load img x row = Some b -> (b < white_threshold self)%Z ->
  load img (S x) row = Some b' -> (b' >= white_threshold self)%Z ->
  x = 0%nat \/ 1 - IZR b / 255 < 0.02 ->
  wave_y self b x row (INR row * line_spacing self)
    = INR row * line_spacing self /\
  ~ In (S x) (xs_of path) /\
  (forall points,
     last_y points = Some (INR row * line_spacing self) ->
     row_step self (load img) row (INR row * line_spacing self) points (S x)
       = Some points) /\
  (1 - IZR b / 255 < 0.02 -> (250 < white_threshold self)%Z).
Proof.
  intros Hgen Hx Eb Hb Eb' Hb' Hcase.
  assert (Hy : wave_y self b x row (INR row * line_spacing self)
               = INR row * line_spacing self).
  { destruct Hcase as [-> | Hd];
      [apply wave_y_column_0 | apply wave_y_nearly_white; exact Hd]. }
  split; [exact Hy | ]. split; [ | split].
  - apply (flat_point_after_dark self img row width x b b' path); assumption.
  - intros points Hlast.
    rewrite (row_step_white self (load img) row _ points (S x) b' Eb' Hb').
    rewrite (needs_flat_point_at_base _ _ Hlast). reflexivity.
  - intros Hd. apply nearly_white_brightness in Hd. lia.
Qed.

Lemma white_after_base_line_point_witness :
  wave_y strict_white_converter 254 1 0
      (INR 0 * line_spacing strict_white_converter)
    = INR 0 * line_spacing strict_white_converter /\
  ~ In 2%nat (xs_of [(0%nat, 0); (1%nat, 0)]) /\
  (forall points,
     last_y points = Some (INR 0 * line_spacing strict_white_converter) ->
     row_step strict_white_converter (load white_faint_white) 0
       (INR 0 * line_spacing strict_white_converter) points 2
       = Some points) /\
  (1 - IZR 254 / 255 < 0.02 ->
   (250 < white_threshold strict_white_converter)%Z).
Proof.
  apply (white_after_base_line_point strict_white_converter white_faint_white
           0 3 1 254 255 _ white_faint_white_path);
    [lia | reflexivity | simpl; lia | reflexivity | simpl; lia | right; lra].
Defined.

(** ** Formatting with two decimals *)

Lemma round_half_even_eval (r : R) (z : Z) (f : R) :
  0 <= f < 1 -> r = IZR z + f ->
  round_half_even r =
    if Rlt_dec f (1 / 2) then z
    else if Rlt_dec (1 / 2) f then (z + 1)%Z
    else if Z.even z then z else (z + 1)%Z.
Proof.
  intros Hf Hr. unfold round_half_even.
  destruct (Int_part_frac_part_spec r z f Hf Hr) as [<- <-]. reflexivity.
Qed.

Lemma round_half_even_down (r : R) (z : Z) :
  IZR z <= r < IZR z + 1 / 2 -> round_half_even r = z.
Proof.
  intros Hr. rewrite (round_half_even_eval r z (r - IZR z)); [ | lra | lra].
  destruct (Rlt_dec (r - IZR z) (1 / 2)) as [_ | N]; [reflexivity | lra].
Qed.

Lemma round_half_even_up (r : R) (z : Z) :
  IZR z - 1 / 2 < r <= IZR z -> round_half_even r = z.
Proof.
  intros Hr. destruct (Req_dec_T r (IZR z)) as [-> | Hne].
  - apply round_half_even_down. lra.
  - rewrite (round_half_even_eval r (z - 1) (r - IZR (z - 1)));
      rewrite ?minus_IZR; [ | lra | lra].
    destruct (Rlt_dec (r - (IZR z - 1)) (1 / 2)) as [H | _]; [lra | ].
    destruct (Rlt_dec (1 / 2) (r - (IZR z - 1))) as [_ | N]; [lia | lra].
Qed.

Lemma round_half_even_IZR (z : Z) : round_half_even (IZR z) = z.
Proof. apply round_half_even_down. lra. Qed.

Lemma round_half_even_nonneg (r : R) : 0 <= r -> (0 <= round_half_even r)%Z.
Proof.
  intros Hr. unfold round_half_even.
  assert (H0 : (0 <= Int_part r)%Z).
  { destruct (base_Int_part r) as [_ Hi].
    apply Z.lt_succ_r. apply lt_IZR. rewrite succ_IZR. lra. }
  destruct (Rlt_dec _ _); [exact H0 | ].
  destruct (Rlt_dec _ _); [lia | ].
  destruct (Z.even _); lia.
Qed.

(** The value printed is within half a hundredth of the value given. *)
Lemma round_half_even_close (r : R) :
  - (1 / 2) <= IZR (round_half_even r) - r <= 1 / 2.
Proof.
  unfold round_half_even.
  pose proof (Rplus_Int_part_frac_part r) as Hr.
  pose proof (base_fp r) as [Hf0 Hf1].
  destruct (Rlt_dec _ _) as [H1 | H1]; [ | destruct (Rlt_dec _ _) as [H2 | H2];
    [ | destruct (Z.even _)]]; rewrite ?plus_IZR; lra.
Qed.

Lemma quantize_2f_INR (n : nat) :
  quantize_2f (INR n) = (false, (Z.of_nat n * 100)%Z).
Proof.
  unfold quantize_2f. pose proof (pos_INR n) as Hn.
  destruct (Rlt_dec (INR n) 0) as [H | _]; [lra | ].
  f_equal. rewrite Rabs_pos_eq by exact Hn.
  rewrite INR_IZR_INZ, <- mult_IZR. apply round_half_even_IZR.
Qed.

Lemma digit_text (d : nat) :
  (d < 10)%nat ->
  exists c, NilEmpty.string_of_uint (Nat.to_uint d) = String c "" /\
            is_digit c = true /\ digit_value c = d.
Proof.
  intros Hd.
  do 10 (destruct d as [ | d]; [eexists; repeat split; reflexivity | ]).
  lia.
Qed.

Lemma two_digits_text (k : nat) :
  (k < 100)%nat ->
  exists d1 d2, two_digits k = String d1 (String d2 "") /\
                is_digit d1 = true /\ is_digit d2 = true /\
                (10 * digit_value d1 + digit_value d2)%nat = k.
Proof.
  intros Hk. unfold two_digits.
  destruct (digit_text (k / 10)) as (d1 & E1 & H1 & V1).
  { apply Nat.Div0.div_lt_upper_bound. lia. }
  destruct (digit_text (k mod 10)) as (d2 & E2 & H2 & V2).
  { apply Nat.mod_upper_bound. lia. }
  exists d1, d2. rewrite E1, E2, V1, V2. repeat split; auto.
  pose proof (Nat.div_mod_eq k 10). lia.
Qed.

Lemma string_of_uint_digits (d : Decimal.uint) :
  all_digits (NilEmpty.string_of_uint d) = true.
Proof. induction d; simpl; auto. Qed.

Lemma str_nat_nonempty (n : nat) : str_nat n <> ""%string.
Proof.
  unfold str_nat. intros E.
  assert (Hnil : Nat.to_uint n <> Decimal.Nil).
  { rewrite <- (DecimalNat.Unsigned.of_to n) at 1.
    rewrite DecimalNat.Unsigned.to_of. apply DecimalFacts.unorm_nonnil. }
  destruct (Nat.to_uint n); try discriminate. contradiction.
Qed.

(** Every formatted value has exactly two fractional digits. *)
Lemma format_2f_shape (v : R) : two_fractional_digits (format_2f v).
Proof.
  unfold format_2f, quantize_2f, render_2f.
  set (n := round_half_even (Rabs v * 100)).
  destruct (two_digits_text (Z.to_nat (n mod 100)))
    as (d1 & d2 & E & H1 & H2 & _).
  { pose proof (Z.mod_pos_bound n 100). lia. }
  exists (if Rlt_dec v 0 then "-" else "")%string,
         (str_nat (Z.to_nat (n / 100))), d1, d2.
  rewrite E. split; [destruct (Rlt_dec v 0); reflexivity | ].
  split; [destruct (Rlt_dec v 0); auto | ].
  split; [apply str_nat_nonempty | ].
  split; [apply string_of_uint_digits | ].
  split; assumption.
Qed.

(** An integer is printed with two zeros after the point. *)
Lemma format_2f_INR (n : nat) :
  format_2f (INR n) = (str_nat n ++ ".00")%string.
Proof.
  unfold format_2f. rewrite quantize_2f_INR. unfold render_2f.
  rewrite Z.div_mul by lia. rewrite Z.mod_mul by lia.
  rewrite Nat2Z.id. reflexivity.
Qed.

Lemma format_2f_0 : format_2f 0 = "0.00"%string.
Proof. exact (format_2f_INR 0). Qed.

(** ** Reading a printed value back *)

Lemma digit_not_point (c : ascii) :
  is_digit c = true -> Ascii.eqb c "." = false /\ Ascii.eqb c "-" = false.
Proof.
  intros Hc. split; apply Ascii.eqb_neq; intros ->; discriminate.
Qed.

Lemma split_at_point_digits (whole fraction : string) :
  all_digits whole = true ->
  split_at_point (whole ++ "." ++ fraction) = Some (whole, fraction).
Proof.
  change ("." ++ fraction)%string with (String "." fraction).
  induction whole as [ | c whole IH]; simpl; [reflexivity | ].
  intros H. apply andb_prop in H. destruct H as [Hc Hw].
  destruct (digit_not_point c Hc) as [-> _]. rewrite (IH Hw). reflexivity.
Qed.

Lemma parse_whole_str_nat (n : nat) : parse_whole (str_nat n) = Some n.
Proof.
  unfold parse_whole. destruct (str_nat n) as [ | c rest] eqn:E.
  - exfalso. exact (str_nat_nonempty n E).
  - rewrite <- E. unfold str_nat. rewrite NilEmpty.usu. simpl.
    rewrite DecimalNat.Unsigned.of_to. reflexivity.
Qed.

Lemma parse_fraction_two_digits (k : nat) :
  (k < 100)%nat -> parse_fraction_2 (two_digits k) = Some k.
Proof.
  intros Hk.
  destruct (two_digits_text k Hk) as (d1 & d2 & -> & H1 & H2 & V).
  unfold parse_fraction_2. rewrite H1, H2. cbn [andb]. f_equal. exact V.
Qed.

Lemma parse_unsigned_2f_render (hundredths : Z) :
  (0 <= hundredths)%Z ->
  parse_unsigned_2f (str_nat (Z.to_nat (hundredths / 100)) ++ "."
                       ++ two_digits (Z.to_nat (hundredths mod 100)))
    = Some (IZR hundredths / 100).
Proof.
  intros Hn. unfold parse_unsigned_2f.
  pose proof (Z.mod_pos_bound hundredths 100 ltac:(lia)) as Hm.
  assert (Hq : (0 <= hundredths / 100)%Z) by (apply Z.div_pos; lia).
  rewrite split_at_point_digits by apply string_of_uint_digits.
  rewrite parse_whole_str_nat, parse_fraction_two_digits by lia.
  f_equal. rewrite !INR_IZR_INZ, !Z2Nat.id by lia.
  rewrite (Z.div_mod hundredths 100) at 3 by lia.
  rewrite plus_IZR, mult_IZR. lra.
Qed.

(** The text printed for a quantized value reads back as that value. *)
Lemma parse_2f_render (negative : bool) (hundredths : Z) :
  (0 <= hundredths)%Z ->
  parse_2f (render_2f (negative, hundredths))
    = Some (value_2f (negative, hundredths)).
Proof.
  intros Hn. unfold render_2f, value_2f. destruct negative.
  - simpl. rewrite parse_unsigned_2f_render by exact Hn. reflexivity.
  - change ("" ++ ?s)%string with s.
    rewrite <- (parse_unsigned_2f_render hundredths Hn).
    unfold parse_2f.
    destruct (str_nat (Z.to_nat (hundredths / 100))) as [ | c rest] eqn:E.
    + exfalso. exact (str_nat_nonempty _ E).
    + assert (Hc : is_digit c = true).
      { pose proof (string_of_uint_digits
                      (Nat.to_uint (Z.to_nat (hundredths / 100)))) as Hd.
        fold (str_nat (Z.to_nat (hundredths / 100))) in Hd.
        rewrite E in Hd. simpl in Hd. apply andb_prop in Hd. tauto. }
      simpl. destruct (digit_not_point c Hc) as [_ ->]. reflexivity.
Qed.

Lemma quantize_2f_nonneg (v : R) : (0 <= snd (quantize_2f v))%Z.
Proof.
  unfold quantize_2f. simpl. apply round_half_even_nonneg.
  pose proof (Rabs_pos v). lra.
Qed.

(** What [format_2f] prints reads back as the quantized value. *)
Lemma parse_2f_format_2f (v : R) :
  parse_2f (format_2f v) = Some (value_2f (quantize_2f v)).
Proof.
  unfold format_2f. pose proof (quantize_2f_nonneg v) as Hn.
  destruct (quantize_2f v) as [negative hundredths].
  apply parse_2f_render. exact Hn.
Qed.

(** ** Path commands *)

Lemma append_assoc (s1 s2 s3 : string) :
  ((s1 ++ s2) ++ s3 = s1 ++ (s2 ++ s3))%string.
Proof. induction s1 as [ | c s1 IH]; simpl; [ | rewrite IH]; reflexivity. Qed.

Lemma concat_snoc (sep : string) (l : list string) (x : string) :
  l <> [] ->
  String.concat sep (l ++ [x]) = (String.concat sep l ++ sep ++ x)%string.
Proof.
  induction l as [ | a l IH]; intros Hne; [contradiction | ].
  destruct l as [ | b l]; [reflexivity | ].
  change (String.concat sep ((a :: b :: l) ++ [x]))
    with (a ++ sep ++ String.concat sep ((b :: l) ++ [x]))%string.
  rewrite IH by discriminate.
  change (String.concat sep (a :: b :: l))
    with (a ++ sep ++ String.concat sep (b :: l))%string.
  rewrite !append_assoc. reflexivity.
Qed.

(** Appending a point appends one line command. *)
Lemma points_to_path_commands_snoc (points : list Point) (q : Point) :
  points <> [] ->
  points_to_path_commands (points ++ [q]) =
    (points_to_path_commands points ++ " " ++ line_command q)%string.
Proof.
  destruct points as [ | first remaining]; intros Hne; [contradiction | ].
  unfold points_to_path_commands. cbn [app].
  rewrite map_app. cbn [map].
  exact (concat_snoc " " (move_command first :: map line_command remaining)
                     (line_command q) ltac:(discriminate)).
Qed.

Lemma points_to_path_commands_nonempty (first : Point)
    (remaining : list Point) :
  String.eqb (points_to_path_commands (first :: remaining)) "" = false.
Proof.
  unfold points_to_path_commands, move_command.
  destruct (map line_command remaining); reflexivity.
Qed.

Lemma origin_point_text :
  points_to_path_commands [(0%nat, 0)] = "M 0.00,0.00"%string.
Proof.
  unfold points_to_path_commands, move_command. cbn [map String.concat fst snd].
  rewrite (format_2f_INR 0), format_2f_0. reflexivity.
Qed.

(** ** The document *)

Lemma row_step_first (self : PolargraphConverter)
    (pixels : nat -> nat -> option Z) (row : nat) (y_base : R) (x : nat)
    (points : list Point) :
  row_step self pixels row y_base [] x = Some points ->
  exists y, points = [(x, y)].
Proof.
  unfold row_step. destruct (pixels x row) as [b | ]; simpl; [ | discriminate].
  destruct (b >=? white_threshold self)%Z; intros [= <-]; eexists; reflexivity.
Qed.

(** A row of positive width has at least one point. *)
Lemma generate_row_path_nonempty (self : PolargraphConverter) (img : Image)
    (row width : nat) (path : list Point) :
  (1 <= width)%nat ->
  generate_row_path self img row width = Some path -> path <> [].
Proof.
  intros Hw. unfold generate_row_path.
  destruct width as [ | n]; [lia | ]. cbn [seq for_each].
  destruct (row_step _ _ _ _ [] 0) as [points | ] eqn:E; simpl;
    [ | discriminate].
  apply row_step_first in E. destruct E as [y ->].
  intros Hrest. apply row_loop_extends in Hrest.
  destruct Hrest as (extra & -> & _). discriminate.
Qed.

(** A row of width 0 has no point. *)
Lemma generate_row_path_width_0 (self : PolargraphConverter) (img : Image)
    (row : nat) :
  generate_row_path self img row 0 = Some [].
Proof. reflexivity. Qed.

(** The row loop of [generate_svg] over the rows [k, k + n) of the image:
    it appends the path elements [ds], one per row with a point. *)
Lemma svg_rows (self : PolargraphConverter) (img : Image) (n k : nat)
    (svg_lines : list string) :
  (k + n <= snd (size img))%nat ->
  exists ds,
    for_each (svg_row_step self img (fst (size img))) (seq k n) svg_lines
      = Some (svg_lines ++ map path_element ds) /\
    (List.length ds <= n)%nat /\
    ((1 <= fst (size img))%nat ->
     Forall2 (fun row d =>
                exists points,
                  generate_row_path self img row (fst (size img))
                    = Some points /\
                  d = points_to_path_commands points)
             (seq k n) ds).
Proof.
  revert k svg_lines. induction n as [ | n IH]; intros k svg_lines Hk.
  - exists []. simpl. rewrite List.app_nil_r. repeat split; auto.
  - cbn [seq for_each]. unfold svg_row_step at 1.
    destruct (generate_row_path_total self img k (fst (size img)))
      as [points Epoints]; [lia | lia | ].
    rewrite Epoints. cbn [bind].
    destruct points as [ | first remaining].
    + destruct (IH (S k) svg_lines) as (ds & E & Hl & Hall); [lia | ].
      exists ds. split; [exact E | ]. split; [lia | ].
      intros Hw. exfalso.
      exact (generate_row_path_nonempty self img k _ [] Hw Epoints eq_refl).
    + cbv zeta. rewrite points_to_path_commands_nonempty.
      destruct (IH (S k)
                  (svg_lines ++
                   [path_element
                      (points_to_path_commands (first :: remaining))]))
        as (ds & E & Hl & Hall); [lia | ].
      exists (points_to_path_commands (first :: remaining) :: ds).
      split; [ | split].
      * cbn [bind]. rewrite E, <- List.app_assoc. reflexivity.
      * simpl. lia.
      * intros Hw. constructor; [ | exact (Hall Hw)].
        exists (first :: remaining). auto.
Qed.

Lemma is_path_element_path_element (d : string) :
  is_path_element (path_element d) = true.
Proof. reflexivity. Qed.

Lemma count_path_elements_document (w h : string) (ds : list string) :
  count_path_elements
    ([xml_declaration; svg_open_tag w h; group_open_tag]
       ++ map path_element ds ++ ["  </g>"; "</svg>"]%string)
    = List.length ds.
Proof.
  unfold count_path_elements. rewrite !filter_app, !length_app.
  replace (filter is_path_element
             [xml_declaration; svg_open_tag w h; group_open_tag])
    with (@nil string) by reflexivity.
  replace (filter is_path_element ["  </g>"; "</svg>"]%string)
    with (@nil string) by reflexivity.
  cbn [List.length]. rewrite Nat.add_0_r, Nat.add_0_l.
  induction ds as [ | d ds IH]; cbn [map filter]; [reflexivity | ].
  rewrite is_path_element_path_element. cbn [List.length].
  rewrite IH. reflexivity.
Qed.

(** The lines of the document. *)
Lemma svg_document_lines_eq (self : PolargraphConverter) (img : Image) :
  exists ds,
    svg_document_lines self img =
      Some ([xml_declaration;
             svg_open_tag (str_nat (fst (size img)))
               (format_2f (INR (snd (size img)) * line_spacing self));
             group_open_tag]
            ++ map path_element ds ++ ["  </g>"; "</svg>"]%string) /\
    (List.length ds <= snd (size img))%nat /\
    ((1 <= fst (size img))%nat ->
     Forall2 (fun row d =>
                exists points,
                  generate_row_path self img row (fst (size img))
                    = Some points /\
                  d = points_to_path_commands points)
             (seq 0 (snd (size img))) ds).
Proof.
  unfold svg_document_lines.
  destruct (svg_rows self img (snd (size img)) 0
              [xml_declaration;
               svg_open_tag (str_nat (fst (size img)))
                 (format_2f (INR (snd (size img)) * line_spacing self));
               group_open_tag])
    as (ds & E & Hl & Hall); [lia | ].
  exists ds. destruct (size img) as [w h]. cbn [fst snd] in *.
  rewrite E. cbn [bind]. rewrite <- List.app_assoc. auto.
Qed.

(** What the printed text keeps of a value is within half a hundredth of
    it, and is the value itself when that is a whole number of hundredths. *)
Lemma value_2f_close (v : R) :
  Rabs (value_2f (quantize_2f v) - v) <= 1 / 200.
Proof.
  unfold value_2f, quantize_2f.
  apply Rabs_le.
  destruct (Rlt_dec v 0) as [Hneg | Hpos].
  - rewrite Rabs_left by exact Hneg.
    pose proof (round_half_even_close (- v * 100)) as Hc. lra.
  - rewrite Rabs_pos_eq by lra.
    pose proof (round_half_even_close (v * 100)) as Hc. lra.
Qed.

Lemma value_2f_exact (v : R) (k : Z) :
  v * 100 = IZR k -> value_2f (quantize_2f v) = v.
Proof.
  intros Hk. unfold value_2f, quantize_2f.
  destruct (Rlt_dec v 0) as [Hneg | Hpos].
  - rewrite Rabs_left by exact Hneg.
    replace (- v * 100) with (IZR (- k)) by (rewrite opp_IZR; lra).
    rewrite round_half_even_IZR, opp_IZR. lra.
  - rewrite Rabs_pos_eq by lra. rewrite Hk, round_half_even_IZR. lra.
Qed.

(** [generate_svg] raises nothing and writes the joined lines. *)
Lemma generate_svg_writes (self : PolargraphConverter) (img : Image)
    (output_path : string) (fs : FileSystem) :
  exists svg_lines,
    svg_document_lines self img = Some svg_lines /\
    generate_svg self img output_path fs
      = Some (write_text fs output_path (String.concat newline svg_lines)).
Proof.
  destruct (svg_document_lines_eq self img) as (ds & E & _).
  eexists. split; [exact E | ]. unfold generate_svg. rewrite E. reflexivity.
Qed.

Lemma write_text_read (fs : FileSystem) (path text : string) :
  write_text fs path text path = Some text.
Proof. unfold write_text. rewrite String.eqb_refl. reflexivity. Qed.

(** C8, as the code has it. For an image of width W and height H the
    document is produced; its second line declares the width W and, as
    height, H * line_spacing printed with two decimals: a number within half
    a hundredth of H * line_spacing, and H * line_spacing itself when that
    is a whole number of hundredths.  The document has at most H path
    elements, and exactly H when W is at least 1. *)
Theorem svg_document_shape (self : PolargraphConverter) (img : Image) :
  exists svg_lines height_text declared_height,
    svg_document_lines self img = Some svg_lines /\
    nth 1 svg_lines ""%string =
      svg_open_tag (str_nat (fst (size img))) height_text /\
    height_text = format_2f (INR (snd (size img)) * line_spacing self) /\
    parse_2f height_text = Some declared_height /\
    Rabs (declared_height - INR (snd (size img)) * line_spacing self)
      <= 1 / 200 /\
    (forall k : Z,
       INR (snd (size img)) * line_spacing self * 100 = IZR k ->
       declared_height = INR (snd (size img)) * line_spacing self) /\
    (count_path_elements svg_lines <= snd (size img))%nat /\
    ((1 <= fst (size img))%nat ->
     count_path_elements svg_lines = snd (size img)).
Proof.
  destruct (svg_document_lines_eq self img) as (ds & E & Hl & Hall).
  eexists. eexists. eexists.
  split; [exact E | ]. split; [reflexivity | ]. split; [reflexivity | ].
  split; [apply parse_2f_format_2f | ].
  split; [apply value_2f_close | ]. split; [apply value_2f_exact | ].
  rewrite count_path_elements_document. split; [exact Hl | ].
  intros Hw. apply Hall in Hw. apply Forall2_length in Hw.
  rewrite <- Hw. apply length_seq.
Qed.

Lemma one_black_path :
  generate_row_path odd_spacing_converter one_black 0 1 = Some [(0%nat, 0)].
Proof.
  unfold generate_row_path.
  replace (INR 0 * line_spacing odd_spacing_converter) with 0
    by (simpl; lra).
  cbn [seq for_each].
  rewrite (row_step_dark odd_spacing_converter _ 0 0 [] 0 0);
    [ | reflexivity | simpl; lia].
  rewrite wave_y_column_0. reflexivity.
Qed.

Lemma odd_spacing_height_text :
  quantize_2f (INR 1 * line_spacing odd_spacing_converter) = (false, 123%Z).
Proof.
  unfold quantize_2f. simpl INR. simpl line_spacing.
  destruct (Rlt_dec (1 * 1.234) 0) as [H | _]; [lra | ].
  f_equal. rewrite Rabs_pos_eq by lra.
  apply round_half_even_down. lra.
Qed.

(** C8 as stated fails: with line spacing 1.234 and height 1 the document
    declares the height 1.23. *)
Lemma declared_height_is_rounded :
  svg_document_lines odd_spacing_converter one_black
    = Some [xml_declaration; svg_open_tag "1" "1.23"; group_open_tag;
            path_element "M 0.00,0.00"; "  </g>"; "</svg>"]%string /\
  parse_2f "1.23" = Some 1.23 /\
  INR (snd (size one_black)) * line_spacing odd_spacing_converter = 1.234 /\
  1.23 <> 1.234.
Proof.
  split; [ | split; [ | split]].
  - unfold svg_document_lines. cbn [size one_black one_row_image List.length].
    unfold format_2f. rewrite odd_spacing_height_text.
    cbn [seq for_each]. unfold svg_row_step.
    rewrite one_black_path. cbn [bind].
    rewrite origin_point_text. reflexivity.
  - change "1.23"%string with (render_2f (false, 123%Z)).
    rewrite parse_2f_render by lia. simpl. f_equal; lra.
  - simpl. lra.
  - lra.
Qed.

(** C10. Two runs of [generate_svg] on the same image with the same
    converter write the same text, whatever the files present before each
    run and whatever the output paths. *)
Theorem generate_svg_deterministic (self : PolargraphConverter) (img : Image)
    (path1 path2 : string) (fs1 fs2 : FileSystem) :
  exists document,
    (exists fs1', generate_svg self img path1 fs1 = Some fs1' /\
                  fs1' path1 = Some document) /\
    (exists fs2', generate_svg self img path2 fs2 = Some fs2' /\
                  fs2' path2 = Some document).
Proof.
  destruct (generate_svg_writes self img path1 fs1) as (l1 & E1 & G1).
  destruct (generate_svg_writes self img path2 fs2) as (l2 & E2 & G2).
  assert (l1 = l2) by congruence. subst l2.
  exists (String.concat newline l1). split; eexists.
  - split; [exact G1 | apply write_text_read].
  - split; [exact G2 | apply write_text_read].
Qed.

(** * Further properties *)

(** ** Wave parameters: organic mode, monotonicity *)

Lemma organic_term_small (t k : R) :
  0 <= k -> Rabs (sin t * ORGANIC_NOISE_SCALE * k) <= 0.2 * k.
Proof.
  intros Hk. unfold ORGANIC_NOISE_SCALE.
  pose proof (SIN_bound t) as [Hlo Hhi].
  apply Rabs_le. split; nra.
Qed.

(** X1. Organic mode changes the amplitude by at most 6 percent and the
    frequency factor by at most 4 percent of the values computed with
    organic mode off. *)
Theorem organic_mode_is_subtle (plain organic : PolargraphConverter)
    (darkness : R) (x row : nat) :
  organic_mode plain = false -> organic_mode organic = true ->
  max_amplitude organic = max_amplitude plain ->
  Rabs (fst (calculate_wave_params organic darkness x row)
        - fst (calculate_wave_params plain darkness x row))
    <= 0.06 * Rabs (fst (calculate_wave_params plain darkness x row)) /\
  Rabs (snd (calculate_wave_params organic darkness x row)
        - snd (calculate_wave_params plain darkness x row))
    <= 0.04 * Rabs (snd (calculate_wave_params plain darkness x row)).
Proof.
  intros Hp Ho Hmax. unfold calculate_wave_params.
  destruct (Rlt_dec darkness MIN_DARKNESS_THRESHOLD) as [_ | _].
  - simpl. rewrite Rminus_diag, Rabs_R0. lra.
  - rewrite Hp, Ho, Hmax. simpl.
    set (t := INR x * ORGANIC_X_FREQUENCY + INR row * ORGANIC_Y_FREQUENCY).
    set (a := max_amplitude plain * darkness).
    set (f := FREQUENCY_BASE + darkness * FREQUENCY_SCALE).
    pose proof (organic_term_small t ORGANIC_AMPLITUDE_VAR) as Ha.
    pose proof (organic_term_small t ORGANIC_FREQUENCY_VAR) as Hf.
    unfold ORGANIC_AMPLITUDE_VAR in *. unfold ORGANIC_FREQUENCY_VAR in *.
    split.
    + replace (a * (1 + sin t * ORGANIC_NOISE_SCALE * 0.3) - a)
        with (a * (sin t * ORGANIC_NOISE_SCALE * 0.3)) by ring.
      rewrite Rabs_mult. pose proof (Rabs_pos a).
      specialize (Ha ltac:(lra)). nra.
    + replace (f * (1 + sin t * ORGANIC_NOISE_SCALE * 0.2) - f)
        with (f * (sin t * ORGANIC_NOISE_SCALE * 0.2)) by ring.
      rewrite Rabs_mult. pose proof (Rabs_pos f).
      specialize (Hf ltac:(lra)). nra.
Qed.

Lemma organic_mode_is_subtle_witness :
  Rabs (fst (calculate_wave_params (mkConverter 2.0 3.0 true 2.0 250) 0.5 3 1)
        - fst (calculate_wave_params default_converter 0.5 3 1))
    <= 0.06 * Rabs (fst (calculate_wave_params default_converter 0.5 3 1)) /\
  Rabs (snd (calculate_wave_params (mkConverter 2.0 3.0 true 2.0 250) 0.5 3 1)
        - snd (calculate_wave_params default_converter 0.5 3 1))
    <= 0.04 * Rabs (snd (calculate_wave_params default_converter 0.5 3 1)).
Proof.
  apply (organic_mode_is_subtle default_converter
           (mkConverter 2.0 3.0 true 2.0 250) 0.5 3 1); reflexivity.
Defined.

(** X2. With organic mode off and a non-negative maximum amplitude, a darker
    pixel never gets a smaller amplitude or a smaller frequency factor. *)
Theorem darker_is_wavier (self : PolargraphConverter) (d1 d2 : R)
    (x1 row1 x2 row2 : nat) :
  organic_mode self = false -> 0 <= max_amplitude self -> d1 <= d2 ->
  fst (calculate_wave_params self d1 x1 row1)
    <= fst (calculate_wave_params self d2 x2 row2) /\
  snd (calculate_wave_params self d1 x1 row1)
    <= snd (calculate_wave_params self d2 x2 row2).
Proof.
  intros Horg Hmax Hd. unfold calculate_wave_params. rewrite Horg.
  unfold MIN_DARKNESS_THRESHOLD, FREQUENCY_BASE, FREQUENCY_SCALE.
  destruct (Rlt_dec d1 0.02) as [H1 | H1];
    destruct (Rlt_dec d2 0.02) as [H2 | H2]; simpl; split; try lra; nra.
Qed.

Lemma darker_is_wavier_witness :
  fst (calculate_wave_params default_converter 0.01 0 0)
    <= fst (calculate_wave_params default_converter 0.7 5 2) /\
  snd (calculate_wave_params default_converter 0.01 0 0)
    <= snd (calculate_wave_params default_converter 0.7 5 2).
Proof.
  apply (darker_is_wavier default_converter 0.01 0.7 0 0 5 2);
    [reflexivity | simpl; lra | lra].
Defined.

(** X4. The frequency factor is either 0, with amplitude 0 (the pixel is
    nearly white), or at least 0.5: there is no slow wave. *)
Theorem frequency_factor_gap (self : PolargraphConverter) (darkness : R)
    (x row : nat) :
  calculate_wave_params self darkness x row = (0, 0) \/
  0.5 <= snd (calculate_wave_params self darkness x row).
Proof.
  unfold calculate_wave_params.
  destruct (Rlt_dec darkness MIN_DARKNESS_THRESHOLD) as [_ | Hd];
    [left; reflexivity | right].
  unfold MIN_DARKNESS_THRESHOLD in Hd.
  destruct (organic_mode self); simpl;
    unfold FREQUENCY_BASE, FREQUENCY_SCALE; [ | lra].
  set (t := INR x * ORGANIC_X_FREQUENCY + INR row * ORGANIC_Y_FREQUENCY).
  pose proof (organic_term_small t ORGANIC_FREQUENCY_VAR) as Hf.
  unfold ORGANIC_FREQUENCY_VAR in *. specialize (Hf ltac:(lra)).
  assert (Hlo : - (0.2 * 0.2) <= sin t * ORGANIC_NOISE_SCALE * 0.2).
  { revert Hf. unfold Rabs. destruct (Rcase_abs _); lra. }
  nra.
Qed.

(** ** Rows: when the pixel access raises *)

Lemma load_out_of_range (img : Image) (x row : nat) :
  (fst (size img) <= x)%nat \/ (snd (size img) <= row)%nat ->
  load img x row = None.
Proof.
  unfold load. destruct (size img) as [w h]. simpl. intros [H | H].
  - apply Nat.ltb_ge in H. rewrite H. reflexivity.
  - apply Nat.ltb_ge in H. rewrite H, Bool.andb_false_r. reflexivity.
Qed.

Lemma row_step_raises (self : PolargraphConverter)
    (pixels : nat -> nat -> option Z) (row : nat) (y_base : R)
    (points : list Point) (x : nat) :
  pixels x row = None -> row_step self pixels row y_base points x = None.
Proof. intros E. unfold row_step. rewrite E. reflexivity. Qed.

(** X5. With at least one column to read, [generate_row_path] raises
    exactly when the row is not below the image height or the width exceeds
    the image width.  (Width 0 is left out: the loop then reads nothing, and
    what the call does depends only on [row * line_spacing].) *)
Theorem generate_row_path_raises (self : PolargraphConverter) (img : Image)
    (row width : nat) :
  (1 <= width)%nat ->
  (generate_row_path self img row width = None <->
   (snd (size img) <= row)%nat \/ (fst (size img) < width)%nat).
Proof.
  intros Hw. split.
  - intros Hnone.
    destruct (le_lt_dec (snd (size img)) row) as [Hr | Hr]; [left; exact Hr | ].
    destruct (le_lt_dec width (fst (size img))) as [Hx | Hx];
      [ | right; exact Hx].
    destruct (generate_row_path_total self img row width Hr Hx) as [path E].
    rewrite E in Hnone. discriminate.
  - intros Hout. unfold generate_row_path.
    destruct (le_lt_dec (snd (size img)) row) as [Hr | Hr].
    + destruct width as [ | n]; [lia | ]. cbn [seq for_each].
      rewrite row_step_raises; [reflexivity | ].
      apply load_out_of_range. right. exact Hr.
    + destruct Hout as [Hr' | Hx]; [lia | ].
      replace width
        with (fst (size img) + S (width - S (fst (size img))))%nat by lia.
      rewrite seq_app, for_each_app.
      destruct (generate_row_path_total self img row (fst (size img)) Hr
                  (le_n _)) as [before E].
      unfold generate_row_path in E. rewrite E. cbn [bind seq for_each].
      rewrite row_step_raises; [reflexivity | ].
      apply load_out_of_range. left. simpl. lia.
Qed.

Lemma generate_row_path_raises_witness :
  generate_row_path default_converter four_white 0 5 = None <->
  (snd (size four_white) <= 0)%nat \/ (fst (size four_white) < 5)%nat.
Proof.
  apply (generate_row_path_raises default_converter four_white 0 5). lia.
Defined.

(** ** Rows: where each point comes from *)

(** Every point added over the columns [k, k + n) is the flat point of a
    white pixel or the wave point of a pixel below the threshold. *)
Lemma row_loop_point_origin (self : PolargraphConverter)
    (pixels : nat -> nat -> option Z) (row : nat) (y_base : R)
    (n k : nat) (points path : list Point) :
  for_each (row_step self pixels row y_base) (seq k n) points = Some path ->
  forall p, In p path ->
    In p points \/
    exists b, (k <= fst p < k + n)%nat /\ pixels (fst p) row = Some b /\
      (((b >= white_threshold self)%Z /\ snd p = y_base) \/
       ((b < white_threshold self)%Z /\
        snd p = wave_y self b (fst p) row y_base)).
Proof.
  revert k points. induction n as [ | n IH]; intros k points; simpl.
  - intros [= <-] p Hp. left. exact Hp.
  - destruct (pixels k row) as [b | ] eqn:Eb;
      [ | rewrite row_step_raises by exact Eb; discriminate].
    destruct (Z_lt_ge_dec b (white_threshold self)) as [Hb | Hb].
    + rewrite (row_step_dark self pixels row y_base points k b Eb Hb).
      simpl. intros Hrest p Hp.
      destruct (IH _ _ Hrest p Hp) as [Hin | (b' & Hr & E' & Hc)].
      * apply in_app_or in Hin. destruct Hin as [Hin | [<- | []]];
          [left; exact Hin | right].
        exists b. simpl. repeat split; try lia; auto.
      * right. exists b'. repeat split; try lia; auto.
    + rewrite (row_step_white self pixels row y_base points k b Eb Hb).
      simpl. intros Hrest p Hp.
      destruct (IH _ _ Hrest p Hp) as [Hin | (b' & Hr & E' & Hc)].
      * destruct (needs_flat_point points y_base); [ | left; exact Hin].
        apply in_app_or in Hin. destruct Hin as [Hin | [<- | []]];
          [left; exact Hin | right].
        exists b. simpl. repeat split; try lia; auto.
      * right. exists b'. repeat split; try lia; auto.
Qed.

(** X6. Every point of a returned path belongs to a pixel of the row: it is
    the flat point (x, y_base) of a white pixel or the wave point of a pixel
    below the white threshold. *)
Theorem generate_row_path_point_origin (self : PolargraphConverter)
    (img : Image) (row width : nat) (path : list Point) (x : nat) (y : R) :
  generate_row_path self img row width = Some path ->
  In (x, y) path ->
  exists b, (x < width)%nat /\ load img x row = Some b /\
    (((b >= white_threshold self)%Z /\ y = INR row * line_spacing self) \/
     ((b < white_threshold self)%Z /\
      y = wave_y self b x row (INR row * line_spacing self))).
Proof.
  unfold generate_row_path. intros Hgen Hin.
  destruct (row_loop_point_origin self (load img) row _ width 0 [] path Hgen
              (x, y) Hin) as [[] | (b & Hr & Eb & Hc)].
  exists b. simpl in *. repeat split; try lia; auto.
Qed.

Lemma generate_row_path_point_origin_witness :
  exists b, (1 < 3)%nat /\ load white_black_white 1 0 = Some b /\
    (((b >= white_threshold default_converter)%Z /\
      3 * sin 0.2 = INR 0 * line_spacing default_converter) \/
     ((b < white_threshold default_converter)%Z /\
      3 * sin 0.2 = wave_y default_converter b 1 0
                      (INR 0 * line_spacing default_converter))).
Proof.
  apply (generate_row_path_point_origin default_converter white_black_white
           0 3 _ 1 (3 * sin 0.2) white_black_white_path).
  right. left. reflexivity.
Defined.

(** X7. A pixel below the white threshold always gets its point: the point
    is appended whatever came before it. *)
Theorem dark_pixel_has_its_point (self : PolargraphConverter)
    (img : Image) (row width x : nat) (b : Z) (path : list Point) :
  generate_row_path self img row width = Some path ->
  (x < width)%nat ->
  load img x row = Some b -> (b < white_threshold self)%Z ->
  In (x, wave_y self b x row (INR row * line_spacing self)) path.
Proof.
  intros Hgen Hx Eb Hb.
  destruct (generate_row_path_split self img row width x path Hgen Hx)
    as (before & after & _ & Hstep & Hrest).
  rewrite (row_step_dark self (load img) row _ before x b Eb Hb) in Hstep.
  injection Hstep as <-.
  apply row_loop_extends in Hrest. destruct Hrest as (extra & -> & _).
  apply in_or_app. left. apply in_or_app. right. left. reflexivity.
Qed.

Lemma dark_pixel_has_its_point_witness :
  In (1%nat, wave_y default_converter 0 1 0
               (INR 0 * line_spacing default_converter))
     [(0%nat, 0); (1%nat, 3 * sin 0.2); (2%nat, 0)].
Proof.
  apply (dark_pixel_has_its_point default_converter white_black_white
           0 3 1 0 _ white_black_white_path);
    [lia | reflexivity | simpl; lia].
Defined.

(** ** Rows: how far a point leaves the base line *)

Lemma amplitude_upper (self : PolargraphConverter) (darkness : R)
    (x row : nat) :
  0 <= max_amplitude self -> 0 <= darkness <= 1 ->
  fst (calculate_wave_params self darkness x row)
    <= 1.06 * max_amplitude self /\
  (organic_mode self = false ->
   fst (calculate_wave_params self darkness x row) <= max_amplitude self).
Proof.
  intros Hmax [Hlo Hhi]. unfold calculate_wave_params.
  destruct (Rlt_dec darkness MIN_DARKNESS_THRESHOLD) as [_ | _];
    [simpl; split; [lra | intros _; lra] | ].
  assert (Ha : 0 <= max_amplitude self * darkness <= max_amplitude self)
    by nra.
  destruct (organic_mode self); simpl; [ | split; [lra | intros _; lra]].
  split; [ | discriminate].
  set (t := INR x * ORGANIC_X_FREQUENCY + INR row * ORGANIC_Y_FREQUENCY).
  pose proof (organic_term_small t ORGANIC_AMPLITUDE_VAR) as Hs.
  unfold ORGANIC_AMPLITUDE_VAR in *. specialize (Hs ltac:(lra)).
  assert (Hup : sin t * ORGANIC_NOISE_SCALE * 0.3 <= 0.2 * 0.3).
  { revert Hs. unfold Rabs. destruct (Rcase_abs _); lra. }
  nra.
Qed.

Lemma wave_y_band (self : PolargraphConverter) (b : Z) (x row : nat)
    (y_base : R) :
  0 <= max_amplitude self -> (0 <= b <= 255)%Z ->
  Rabs (wave_y self b x row y_base - y_base) <= 1.06 * max_amplitude self /\
  (organic_mode self = false ->
   Rabs (wave_y self b x row y_base - y_base) <= max_amplitude self).
Proof.
  intros Hmax [Hb0 Hb1]. unfold wave_y.
  assert (Hd : 0 <= 1 - IZR b / 255 <= 1).
  { apply IZR_le in Hb0, Hb1. lra. }
  pose proof (amplitude_nonneg self _ x row Hmax Hd) as Hlo.
  pose proof (amplitude_upper self _ x row Hmax Hd) as [Hup Hup'].
  destruct (calculate_wave_params self (1 - IZR b / 255) x row) as [a f].
  simpl in *.
  replace (y_base + a * sin (INR x * f * WAVE_FREQUENCY_SCALE) - y_base)
    with (a * sin (INR x * f * WAVE_FREQUENCY_SCALE)) by ring.
  pose proof (SIN_bound (INR x * f * WAVE_FREQUENCY_SCALE)) as [Hs0 Hs1].
  split; [ | intros Horg; specialize (Hup' Horg)]; apply Rabs_le; split; nra.
Qed.

(** X8. When the pixels of the row are 8-bit values and the maximum
    amplitude is not negative, no point of the path is further than
    1.06 * max_amplitude from the base line, and no further than
    max_amplitude with organic mode off. *)
Theorem path_stays_in_band (self : PolargraphConverter) (img : Image)
    (row width : nat) (path : list Point) :
  0 <= max_amplitude self ->
  (forall x b, (x < width)%nat -> load img x row = Some b ->
               (0 <= b <= 255)%Z) ->
  generate_row_path self img row width = Some path ->
  Forall (fun p : Point =>
            Rabs (snd p - INR row * line_spacing self)
              <= 1.06 * max_amplitude self /\
            (organic_mode self = false ->
             Rabs (snd p - INR row * line_spacing self)
               <= max_amplitude self))
         path.
Proof.
  intros Hmax Hpix Hgen. apply Forall_forall. intros [x y] Hin.
  unfold generate_row_path in Hgen.
  destruct (row_loop_point_origin self (load img) row _ width 0 [] path Hgen
              (x, y) Hin) as [[] | (b & Hx & Eb & Hc)].
  simpl in *. destruct Hc as [[_ ->] | [_ ->]].
  - rewrite Rminus_diag, Rabs_R0. split; [lra | intros _; exact Hmax].
  - apply wave_y_band; [exact Hmax | apply (Hpix x b); [lia | exact Eb]].
Qed.

Lemma one_row_image_pixels (row0 : list Z) :
  Forall (fun b => (0 <= b <= 255)%Z) row0 ->
  forall x row b, load (one_row_image row0) x row = Some b ->
                  (0 <= b <= 255)%Z.
Proof.
  intros Hall x row b E. apply load_some in E.
  destruct E as (Hx & _ & ->). simpl in *.
  rewrite Forall_forall in Hall. apply Hall. apply nth_In. exact Hx.
Qed.

Lemma path_stays_in_band_witness :
  Forall (fun p : Point =>
            Rabs (snd p - INR 0 * line_spacing default_converter)
              <= 1.06 * max_amplitude default_converter /\
            (organic_mode default_converter = false ->
             Rabs (snd p - INR 0 * line_spacing default_converter)
               <= max_amplitude default_converter))
         [(0%nat, 3 * sin (INR 0 * 0.2)); (1%nat, 3 * sin (INR 1 * 0.2));
          (2%nat, 3 * sin (INR 2 * 0.2))].
Proof.
  apply (path_stays_in_band default_converter three_black 0 3 _);
    [simpl; lra | | exact three_black_path].
  intros x b _. apply one_row_image_pixels.
  repeat constructor; lia.
Defined.

(** ** Rows: the first point, runs of white pixels, narrower widths *)

(** X9. Every row of positive width starts at the left edge on its base
    line: the first point is (0, y_base) whether the first pixel is white or
    not, since the wave offset vanishes at column 0. *)
Theorem path_starts_on_base_line (self : PolargraphConverter) (img : Image)
    (row width : nat) (path : list Point) :
  (1 <= width)%nat ->
  generate_row_path self img row width = Some path ->
  exists rest, path = (0%nat, INR row * line_spacing self) :: rest.
Proof.
  intros Hw. unfold generate_row_path.
  destruct width as [ | n]; [lia | ]. cbn [seq for_each].
  destruct (load img 0 row) as [b | ] eqn:Eb;
    [ | rewrite row_step_raises by exact Eb; discriminate].
  destruct (Z_lt_ge_dec b (white_threshold self)) as [Hb | Hb].
  - rewrite (row_step_dark self (load img) row _ [] 0 b Eb Hb).
    rewrite wave_y_column_0. cbn [bind app]. intros Hrest.
    apply row_loop_extends in Hrest. destruct Hrest as (extra & -> & _).
    exists extra. reflexivity.
  - rewrite (row_step_white self (load img) row _ [] 0 b Eb Hb).
    rewrite needs_flat_point_nil. cbn [bind app]. intros Hrest.
    apply row_loop_extends in Hrest. destruct Hrest as (extra & -> & _).
    exists extra. reflexivity.
Qed.

Lemma path_starts_on_base_line_witness :
  exists rest,
    [(0%nat, 3 * sin (INR 0 * 0.2)); (1%nat, 3 * sin (INR 1 * 0.2));
     (2%nat, 3 * sin (INR 2 * 0.2))]
    = (0%nat, INR 0 * line_spacing default_converter) :: rest.
Proof.
  apply (path_starts_on_base_line default_converter three_black 0 3 _);
    [lia | exact three_black_path].
Defined.

(** After a white pixel the last point sits on the base line. *)
Lemma needs_flat_point_after_white (points : list Point) (x : nat)
    (y_base : R) :
  needs_flat_point
    (if needs_flat_point points y_base
     then points ++ [(x, y_base)] else points) y_base = false.
Proof.
  destruct (needs_flat_point points y_base) eqn:E; [ | exact E].
  apply needs_flat_point_at_base. apply last_y_snoc.
Qed.

(** X10. Of two neighbouring white pixels the second never gets a point:
    a run of white pixels contributes at most its first column. *)
Theorem second_white_pixel_is_skipped (self : PolargraphConverter)
    (img : Image) (row width x : nat) (b b' : Z) (path : list Point) :
  generate_row_path self img row width = Some path ->
  (S x < width)%nat ->
  load img x row = Some b -> (b >= white_threshold self)%Z ->
  load img (S x) row = Some b' -> (b' >= white_threshold self)%Z ->
  ~ In (S x) (xs_of path).
Proof.
  intros Hgen Hx Eb Hb Eb' Hb'.
  destruct (generate_row_path_split self img row width (S x) path Hgen Hx)
    as (mid & after & Hmid & Hstep & Hrest).
  rewrite seq_S, for_each_app in Hmid. simpl in Hmid.
  destruct (for_each _ (seq 0 x) []) as [before | ] eqn:Hbefore;
    simpl in Hmid; [ | discriminate].
  rewrite (row_step_white self (load img) row _ before x b Eb Hb) in Hmid.
  injection Hmid as <-.
  rewrite (row_step_white self (load img) row _ _ (S x) b' Eb' Hb') in Hstep.
  rewrite needs_flat_point_after_white in Hstep. injection Hstep as <-.
  apply row_loop_extends in Hbefore.
  destruct Hbefore as (extra0 & E0 & _ & Hlow & _). simpl in E0. subst extra0.
  apply row_loop_extends in Hrest.
  destruct Hrest as (extra & -> & _ & Hhigh & _).
  unfold xs_of. rewrite map_app. intros Hin.
  apply in_app_or in Hin. destruct Hin as [Hin | Hin].
  - rewrite Forall_forall in Hlow.
    destruct (needs_flat_point before (INR row * line_spacing self)).
    + rewrite map_app in Hin. apply in_app_or in Hin.
      destruct Hin as [Hin | [Hin | []]]; [ | simpl in Hin; lia].
      apply Hlow in Hin. lia.
    + apply Hlow in Hin. lia.
  - rewrite Forall_forall in Hhigh. apply Hhigh in Hin. lia.
Qed.

Lemma four_white_path :
  generate_row_path default_converter four_white 0 4
    = Some [(0%nat, INR 0 * line_spacing default_converter)].
Proof.
  unfold generate_row_path. cbn [seq for_each].
  rewrite (row_step_white default_converter _ 0 _ [] 0 255);
    [ | reflexivity | simpl; lia].
  rewrite needs_flat_point_nil. cbn [bind app].
  apply (row_loop_all_white default_converter (load four_white) 0 _ 3 1).
  - intros x Hx. apply four_white_pixels. lia.
  - reflexivity.
Qed.

Lemma second_white_pixel_is_skipped_witness :
  ~ In 1%nat (xs_of [(0%nat, INR 0 * line_spacing default_converter)]).
Proof.
  apply (second_white_pixel_is_skipped default_converter four_white 0 4 0
           255 255 _ four_white_path);
    [lia | reflexivity | simpl; lia | reflexivity | simpl; lia].
Defined.

(** X11. The path of a narrower width is a prefix of the path of a wider
    one: the columns to the right only append points. *)
Theorem narrower_width_is_prefix (self : PolargraphConverter) (img : Image)
    (row w1 w2 : nat) (path2 : list Point) :
  (w1 <= w2)%nat ->
  generate_row_path self img row w2 = Some path2 ->
  exists path1 extra,
    generate_row_path self img row w1 = Some path1 /\
    path2 = path1 ++ extra /\
    Forall (fun i => (w1 <= i < w2)%nat) (xs_of extra).
Proof.
  intros Hw. unfold generate_row_path.
  replace w2 with (w1 + (w2 - w1))%nat at 1 by lia.
  rewrite seq_app, for_each_app.
  destruct (for_each _ (seq 0 w1) []) as [path1 | ]; simpl;
    [ | discriminate].
  intros Hrest. apply row_loop_extends in Hrest.
  destruct Hrest as (extra & -> & _ & Hr & _).
  exists path1, extra. repeat split; auto.
  eapply Forall_impl; [ | exact Hr]. simpl. intros i Hi. lia.
Qed.

Lemma narrower_width_is_prefix_witness :
  exists path1 extra,
    generate_row_path default_converter white_black_white 0 2 = Some path1 /\
    [(0%nat, 0); (1%nat, 3 * sin 0.2); (2%nat, 0)] = path1 ++ extra /\
    Forall (fun i => (2 <= i < 3)%nat) (xs_of extra).
Proof.
  apply (narrower_width_is_prefix default_converter white_black_white 0 2 3 _);
    [lia | exact white_black_white_path].
Defined.

(** ** Rows: what a path depends on *)

Lemma for_each_ext {S : Type} (body1 body2 : S -> nat -> option S)
    (xs : list nat) :
  (forall s i, In i xs -> body1 s i = body2 s i) ->
  forall s, for_each body1 xs s = for_each body2 xs s.
Proof.
  induction xs as [ | i xs IH]; intros Hext s; simpl; [reflexivity | ].
  rewrite (Hext s i (or_introl eq_refl)).
  destruct (body2 s i) as [s' | ]; simpl; [ | reflexivity].
  apply IH. intros s2 j Hj. apply Hext. right. exact Hj.
Qed.

Lemma calculate_wave_params_ext (self1 self2 : PolargraphConverter)
    (darkness : R) (x row : nat) :
  max_amplitude self1 = max_amplitude self2 ->
  organic_mode self1 = organic_mode self2 ->
  calculate_wave_params self1 darkness x row
    = calculate_wave_params self2 darkness x row.
Proof.
  intros Hmax Horg. unfold calculate_wave_params. rewrite Hmax, Horg.
  reflexivity.
Qed.

(** X12. The path of a row depends on the pixels of that row only, and on
    the line spacing, the maximum amplitude, the organic flag and the white
    threshold only: other rows and the contrast factor play no part. *)
Theorem row_depends_on_its_pixels (self1 self2 : PolargraphConverter)
    (img1 img2 : Image) (row width : nat) :
  line_spacing self1 = line_spacing self2 ->
  max_amplitude self1 = max_amplitude self2 ->
  organic_mode self1 = organic_mode self2 ->
  white_threshold self1 = white_threshold self2 ->
  (forall x, (x < width)%nat -> load img1 x row = load img2 x row) ->
  generate_row_path self1 img1 row width
    = generate_row_path self2 img2 row width.
Proof.
  intros Hls Hmax Horg Hwt Hpix. unfold generate_row_path.
  rewrite Hls. apply for_each_ext. intros points x Hx.
  apply in_seq in Hx. unfold row_step, wave_y.
  rewrite (Hpix x) by lia. rewrite Hwt.
  destruct (load img2 x row) as [b | ]; simpl; [ | reflexivity].
  rewrite (calculate_wave_params_ext self1 self2 _ x row Hmax Horg).
  reflexivity.
Qed.

Lemma row_depends_on_its_pixels_witness :
  generate_row_path default_converter white_black_white 0 3
    = generate_row_path high_contrast_converter white_black_white_over_grey
        0 3.
Proof.
  apply (row_depends_on_its_pixels default_converter high_contrast_converter
           white_black_white white_black_white_over_grey 0 3);
    reflexivity.
Defined.

(** ** Path strings read back *)

(** X13. The path string is empty for the empty list only: a row with a
    point always gives an element, the inner test of [generate_svg] never
    skips it. *)
Theorem path_string_empty_iff (points : list Point) :
  points_to_path_commands points = ""%string <-> points = [].
Proof.
  split; [ | intros ->; reflexivity].
  destruct points as [ | first remaining]; [reflexivity | ].
  intros E. pose proof (points_to_path_commands_nonempty first remaining) as H.
  rewrite E in H. discriminate.
Qed.

Lemma has_char_app (c : ascii) (s t : string) :
  has_char c (s ++ t) = (has_char c s || has_char c t)%bool.
Proof.
  induction s as [ | c' s IH]; simpl; [reflexivity | ].
  rewrite IH, Bool.orb_assoc. reflexivity.
Qed.

Lemma has_char_digits (c : ascii) (s : string) :
  is_digit c = false -> all_digits s = true -> has_char c s = false.
Proof.
  intros Hc. induction s as [ | c' s IH]; simpl; [reflexivity | ].
  intros H. apply andb_prop in H. destruct H as [Hd Hs].
  rewrite (IH Hs), Bool.orb_false_r. apply Ascii.eqb_neq.
  intros ->. rewrite Hd in Hc. discriminate.
Qed.

(** A printed value holds digits, a point and at most a minus sign. *)
Lemma format_2f_chars (c : ascii) (v : R) :
  is_digit c = false -> c <> "."%char -> c <> "-"%char ->
  has_char c (format_2f v) = false.
Proof.
  intros Hc Hpoint Hminus.
  destruct (format_2f_shape v)
    as (sign & whole & d1 & d2 & -> & Hsign & _ & Hwhole & H1 & H2).
  rewrite !has_char_app.
  rewrite (has_char_digits c whole Hc Hwhole).
  assert (Hs : has_char c sign = false).
  { destruct Hsign as [-> | ->]; cbn [has_char]; [reflexivity | ].
    rewrite Bool.orb_false_r. apply Ascii.eqb_neq. congruence. }
  rewrite Hs. cbn [has_char orb].
  assert (Hp : Ascii.eqb "." c = false) by (apply Ascii.eqb_neq; congruence).
  assert (E1 : Ascii.eqb d1 c = false).
  { apply Ascii.eqb_neq. intros ->. rewrite H1 in Hc. discriminate. }
  assert (E2 : Ascii.eqb d2 c = false).
  { apply Ascii.eqb_neq. intros ->. rewrite H2 in Hc. discriminate. }
  rewrite Hp, E1, E2. reflexivity.
Qed.

Lemma split_on_absent (sep : ascii) (s : string) :
  has_char sep s = false -> split_on sep s = [s].
Proof.
  induction s as [ | c s IH]; simpl; [reflexivity | ].
  intros H. apply Bool.orb_false_elim in H. destruct H as [Hc Hs].
  rewrite Hc, (IH Hs). reflexivity.
Qed.

Lemma split_on_first (sep : ascii) (s t : string) :
  has_char sep s = false ->
  split_on sep (s ++ String sep t) = s :: split_on sep t.
Proof.
  induction s as [ | c s IH]; simpl.
  - intros _. rewrite Ascii.eqb_refl. reflexivity.
  - intros H. apply Bool.orb_false_elim in H. destruct H as [Hc Hs].
    rewrite Hc, (IH Hs). reflexivity.
Qed.

(** Splitting undoes joining when no token holds the separator. *)
Lemma split_on_concat (sep : ascii) (tokens : list string) :
  tokens <> [] ->
  Forall (fun t => has_char sep t = false) tokens ->
  split_on sep (String.concat (String sep "") tokens) = tokens.
Proof.
  induction tokens as [ | t tokens IH]; intros Hne Hall; [contradiction | ].
  inversion Hall as [ | ? ? Ht Hrest]; subst.
  destruct tokens as [ | u tokens].
  - simpl. apply split_on_absent. exact Ht.
  - change (String.concat (String sep "") (t :: u :: tokens))
      with (t ++ String sep (String.concat (String sep "") (u :: tokens)))%string.
    rewrite (split_on_first sep t _ Ht).
    rewrite IH; [reflexivity | discriminate | exact Hrest].
Qed.

Lemma concat_regroup (l a : string) (rest : list string) :
  String.concat " " ((l ++ " " ++ a)%string :: rest)
    = String.concat " " (l :: a :: rest).
Proof.
  destruct rest as [ | r rest]; [reflexivity | ].
  change (String.concat " " ((l ++ " " ++ a)%string :: r :: rest))
    with ((l ++ " " ++ a) ++ " " ++ String.concat " " (r :: rest))%string.
  change (String.concat " " (l :: a :: r :: rest))
    with (l ++ " " ++ a ++ " " ++ String.concat " " (r :: rest))%string.
  rewrite !append_assoc. reflexivity.
Qed.

Lemma concat_line_commands (x : string) (points : list Point) :
  String.concat " " (x :: map line_command points)
    = String.concat " "
        (x :: flat_map (fun q => ["L"%string; pair_text q]) points).
Proof.
  revert x. induction points as [ | q points IH]; intros x; [reflexivity | ].
  cbn [map flat_map app].
  change (line_command q) with ("L" ++ " " ++ pair_text q)%string.
  change (String.concat " "
            (x :: ("L" ++ " " ++ pair_text q)%string
               :: map line_command points))
    with (x ++ " " ++ String.concat " "
            (("L" ++ " " ++ pair_text q)%string :: map line_command points))%string.
  rewrite concat_regroup.
  change (String.concat " " ("L"%string :: pair_text q
                               :: map line_command points))
    with ("L" ++ " " ++ String.concat " "
            (pair_text q :: map line_command points))%string.
  rewrite IH. reflexivity.
Qed.

(** The path string is its tokens joined by spaces. *)
Lemma points_to_path_commands_tokens (points : list Point) :
  points_to_path_commands points = String.concat " " (path_tokens points).
Proof.
  destruct points as [ | first remaining]; [reflexivity | ].
  unfold points_to_path_commands, path_tokens.
  change (move_command first) with ("M" ++ " " ++ pair_text first)%string.
  rewrite concat_regroup.
  change (String.concat " " ("M"%string :: pair_text first
                               :: map line_command remaining))
    with ("M" ++ " " ++ String.concat " "
            (pair_text first :: map line_command remaining))%string.
  rewrite concat_line_commands. reflexivity.
Qed.

Lemma pair_text_no_space (p : Point) : has_char " " (pair_text p) = false.
Proof.
  unfold pair_text. rewrite !has_char_app.
  rewrite !format_2f_chars by (try reflexivity; discriminate).
  reflexivity.
Qed.

Lemma path_tokens_no_space (points : list Point) :
  Forall (fun t => has_char " " t = false) (path_tokens points).
Proof.
  destruct points as [ | first remaining]; [constructor | ].
  unfold path_tokens. constructor; [reflexivity | ].
  constructor; [apply pair_text_no_space | ].
  induction remaining as [ | q remaining IH]; [constructor | ].
  cbn [flat_map app]. constructor; [reflexivity | ].
  constructor; [apply pair_text_no_space | exact IH].
Qed.

Lemma parse_2f_INR (n : nat) : parse_2f (format_2f (INR n)) = Some (INR n).
Proof.
  rewrite parse_2f_format_2f. f_equal.
  apply (value_2f_exact (INR n) (Z.of_nat n * 100)).
  rewrite mult_IZR, <- INR_IZR_INZ. reflexivity.
Qed.

Lemma parse_pair_text (p : Point) :
  parse_pair (pair_text p)
    = Some (INR (fst p), value_2f (quantize_2f (snd p))).
Proof.
  unfold parse_pair, pair_text.
  change ("," ++ format_2f (snd p))%string
    with (String "," (format_2f (snd p))).
  rewrite split_on_first by (apply format_2f_chars; try reflexivity; discriminate).
  rewrite split_on_absent by (apply format_2f_chars; try reflexivity; discriminate).
  rewrite parse_2f_INR, parse_2f_format_2f. reflexivity.
Qed.

Lemma parse_line_tokens (points : list Point) :
  parse_commands "L" (flat_map (fun q => ["L"%string; pair_text q]) points)
    = Some (map (fun p : Point =>
                   (INR (fst p), value_2f (quantize_2f (snd p)))) points).
Proof.
  induction points as [ | q points IH]; [reflexivity | ].
  cbn [flat_map app map parse_commands].
  rewrite String.eqb_refl, parse_pair_text, IH. reflexivity.
Qed.

(** The points read back from a path string: the columns, and each height
    rounded to hundredths. *)
Lemma parse_path_points (points : list Point) :
  parse_path (points_to_path_commands points)
    = Some (map (fun p : Point =>
                   (INR (fst p), value_2f (quantize_2f (snd p)))) points).
Proof.
  destruct points as [ | first remaining]; [reflexivity | ].
  unfold parse_path. rewrite points_to_path_commands_nonempty.
  rewrite points_to_path_commands_tokens.
  change " "%string with (String " "%char "").
  rewrite split_on_concat;
    [ | discriminate | apply path_tokens_no_space].
  unfold path_tokens. cbn [parse_commands map].
  rewrite String.eqb_refl, parse_pair_text, parse_line_tokens. reflexivity.
Qed.

(** X14. A path string reads back as the points it was made from, one per
    command and in order: each column exactly, each height within half a
    hundredth. *)
Theorem path_string_round_trip (points : list Point) :
  exists decoded,
    parse_path (points_to_path_commands points) = Some decoded /\
    Forall2 (fun (p : Point) (q : R * R) =>
               fst q = INR (fst p) /\ Rabs (snd q - snd p) <= 1 / 200)
            points decoded.
Proof.
  eexists. split; [apply parse_path_points | ].
  induction points as [ | p points IH]; cbn [map]; constructor;
    [ | exact IH].
  split; [reflexivity | apply value_2f_close].
Qed.

(** ** The document: files, rows in order, empty and white images *)

(** X15. Whenever [generate_svg] returns, the file at [output_path] holds
    the lines of the document joined by newlines, replacing what was there,
    and every other file is as it was. *)
Theorem generate_svg_frame (self : PolargraphConverter) (img : Image)
    (output_path : string) (fs fs' : FileSystem) :
  generate_svg self img output_path fs = Some fs' ->
  exists svg_lines,
    svg_document_lines self img = Some svg_lines /\
    fs' output_path = Some (String.concat newline svg_lines) /\
    (forall p, p <> output_path -> fs' p = fs p).
Proof.
  intros Hrun.
  destruct (generate_svg_writes self img output_path fs) as (l & E & G).
  rewrite G in Hrun. injection Hrun as <-.
  exists l. split; [exact E | ].
  split; [apply write_text_read | ].
  intros p Hp. unfold write_text.
  destruct (String.eqb p output_path) eqn:Ep; [ | reflexivity].
  apply String.eqb_eq in Ep. contradiction.
Qed.

Lemma empty_image_run :
  generate_svg default_converter empty_image "out.svg" (files toy_world)
    = Some (write_text (files toy_world) "out.svg"
              (String.concat newline
                 [xml_declaration;
                  svg_open_tag (str_nat (fst (size empty_image)))
                    (format_2f (INR (snd (size empty_image))
                                * line_spacing default_converter));
                  group_open_tag; "  </g>"; "</svg>"]%string)).
Proof. reflexivity. Qed.

Lemma generate_svg_frame_witness :
  exists svg_lines,
    svg_document_lines default_converter empty_image = Some svg_lines /\
    write_text (files toy_world) "out.svg"
      (String.concat newline
         [xml_declaration;
          svg_open_tag (str_nat (fst (size empty_image)))
            (format_2f (INR (snd (size empty_image))
                        * line_spacing default_converter));
          group_open_tag; "  </g>"; "</svg>"]%string) "out.svg"%string
      = Some (String.concat newline svg_lines) /\
    (forall p, p <> "out.svg"%string ->
       write_text (files toy_world) "out.svg"
         (String.concat newline
            [xml_declaration;
             svg_open_tag (str_nat (fst (size empty_image)))
               (format_2f (INR (snd (size empty_image))
                           * line_spacing default_converter));
             group_open_tag; "  </g>"; "</svg>"]%string) p
       = files toy_world p).
Proof.
  apply (generate_svg_frame default_converter empty_image "out.svg"
           (files toy_world) _ empty_image_run).
Defined.

Lemma Forall2_nth_rel {A B : Type} (P : A -> B -> Prop) (l1 : list A)
    (l2 : list B) (k : nat) (d1 : A) (d2 : B) :
  Forall2 P l1 l2 -> (k < List.length l1)%nat ->
  P (nth k l1 d1) (nth k l2 d2).
Proof.
  intros H. revert k. induction H as [ | a b l1 l2 Hab _ IH]; intros k Hk;
    simpl in Hk; [lia | ].
  destruct k as [ | k]; simpl; [exact Hab | apply IH; lia].
Qed.

(** Line 3 + k of the document of an image of positive width. *)
Lemma document_row_line (self : PolargraphConverter) (img : Image)
    (k : nat) :
  (1 <= fst (size img))%nat -> (k < snd (size img))%nat ->
  exists svg_lines points,
    svg_document_lines self img = Some svg_lines /\
    List.length svg_lines = (snd (size img) + 5)%nat /\
    generate_row_path self img k (fst (size img)) = Some points /\
    nth (3 + k) svg_lines ""%string
      = path_element (points_to_path_commands points).
Proof.
  intros Hw Hk.
  destruct (svg_document_lines_eq self img) as (ds & E & _ & Hall).
  specialize (Hall Hw).
  assert (Hlen : List.length ds = snd (size img)).
  { apply Forall2_length in Hall. rewrite <- Hall. apply length_seq. }
  pose proof (Forall2_nth_rel _ _ _ k 0%nat ""%string Hall) as Hnth.
  rewrite length_seq in Hnth. specialize (Hnth Hk).
  rewrite seq_nth in Hnth by exact Hk.
  destruct Hnth as (points & Epoints & Ed).
  eexists. exists points. split; [exact E | ]. split; [ | split].
  - rewrite !length_app, length_map, Hlen. simpl. lia.
  - exact Epoints.
  - cbn [app nth Nat.add]. rewrite app_nth1 by (rewrite length_map; lia).
    rewrite (nth_indep _ _ (path_element "")) by (rewrite length_map; lia).
    rewrite map_nth. rewrite Ed. reflexivity.
Qed.

(** X16. For an image of width at least 1 the document has H + 5 lines,
    and line 3 + k is the path element of row k: the rows appear in order,
    top to bottom, none is dropped. *)
Theorem document_rows_in_order (self : PolargraphConverter) (img : Image)
    (k : nat) :
  (1 <= fst (size img))%nat -> (k < snd (size img))%nat ->
  exists svg_lines points,
    svg_document_lines self img = Some svg_lines /\
    List.length svg_lines = (snd (size img) + 5)%nat /\
    generate_row_path self img k (fst (size img)) = Some points /\
    nth (3 + k) svg_lines ""%string
      = path_element (points_to_path_commands points).
Proof. apply document_row_line. Qed.

Lemma document_rows_in_order_witness :
  exists svg_lines points,
    svg_document_lines default_converter white_2x2 = Some svg_lines /\
    List.length svg_lines = (snd (size white_2x2) + 5)%nat /\
    generate_row_path default_converter white_2x2 1 (fst (size white_2x2))
      = Some points /\
    nth (3 + 1) svg_lines ""%string
      = path_element (points_to_path_commands points).
Proof.
  apply (document_rows_in_order default_converter white_2x2 1);
    simpl; lia.
Defined.

Lemma svg_rows_width_0 (self : PolargraphConverter) (img : Image)
    (n k : nat) (svg_lines : list string) :
  for_each (svg_row_step self img 0) (seq k n) svg_lines = Some svg_lines.
Proof.
  revert k. induction n as [ | n IH]; intros k; [reflexivity | ].
  cbn [seq for_each]. unfold svg_row_step at 1.
  rewrite generate_row_path_width_0. cbn [bind]. apply IH.
Qed.

(** X17. An image of width 0 or of height 0 gives the document without any
    path element: the three opening lines and the two closing lines. *)
Theorem empty_image_document (self : PolargraphConverter) (img : Image) :
  fst (size img) = 0%nat \/ snd (size img) = 0%nat ->
  svg_document_lines self img
    = Some [xml_declaration;
            svg_open_tag (str_nat (fst (size img)))
              (format_2f (INR (snd (size img)) * line_spacing self));
            group_open_tag; "  </g>"; "</svg>"]%string.
Proof.
  unfold svg_document_lines. destruct (size img) as [w h]. cbn [fst snd].
  intros [-> | ->].
  - rewrite svg_rows_width_0. reflexivity.
  - reflexivity.
Qed.

Lemma empty_image_document_witness :
  svg_document_lines default_converter empty_image
    = Some [xml_declaration;
            svg_open_tag (str_nat (fst (size empty_image)))
              (format_2f (INR (snd (size empty_image))
                          * line_spacing default_converter));
            group_open_tag; "  </g>"; "</svg>"]%string.
Proof.
  apply (empty_image_document default_converter empty_image).
  left. reflexivity.
Defined.

(** The path of a row of white pixels. *)
Lemma white_row_path (self : PolargraphConverter) (img : Image)
    (row width : nat) :
  (1 <= width)%nat ->
  (forall x, (x < width)%nat ->
     exists b, load img x row = Some b /\ (b >= white_threshold self)%Z) ->
  generate_row_path self img row width
    = Some [(0%nat, INR row * line_spacing self)].
Proof.
  intros Hw Hwhite. unfold generate_row_path.
  destruct width as [ | n]; [lia | ]. cbn [seq for_each].
  destruct (Hwhite 0%nat) as (b & Eb & Hb); [lia | ].
  rewrite (row_step_white self (load img) row _ [] 0 b Eb Hb).
  rewrite needs_flat_point_nil. cbn [bind app].
  apply row_loop_all_white; [ | reflexivity].
  intros x Hx. apply Hwhite. lia.
Qed.

(** X18. An image whose pixels are all at or above the white threshold
    gives, for every row k, the path element holding the single command
    M 0.00,y with y the base line k * line_spacing: no line is drawn. *)
Theorem white_image_draws_nothing (self : PolargraphConverter) (img : Image)
    (k : nat) :
  (1 <= fst (size img))%nat -> (k < snd (size img))%nat ->
  (forall x row, (x < fst (size img))%nat -> (row < snd (size img))%nat ->
                 (pixel_data img x row >= white_threshold self)%Z) ->
  exists svg_lines,
    svg_document_lines self img = Some svg_lines /\
    nth (3 + k) svg_lines ""%string
      = path_element ("M 0.00," ++ format_2f (INR k * line_spacing self)).
Proof.
  intros Hw Hk Hwhite.
  destruct (document_row_line self img k Hw Hk)
    as (svg_lines & points & E & _ & Epoints & Eline).
  exists svg_lines. split; [exact E | ]. rewrite Eline. f_equal.
  rewrite white_row_path in Epoints.
  - injection Epoints as <-.
    unfold points_to_path_commands, move_command.
    cbn [map String.concat fst snd]. rewrite (format_2f_INR 0). reflexivity.
  - exact Hw.
  - intros x Hx. exists (pixel_data img x k).
    split; [apply load_in_range; assumption | apply Hwhite; assumption].
Qed.

Lemma white_image_draws_nothing_witness :
  exists svg_lines,
    svg_document_lines default_converter white_2x2 = Some svg_lines /\
    nth (3 + 1) svg_lines ""%string
      = path_element
          ("M 0.00," ++ format_2f (INR 1 * line_spacing default_converter)).
Proof.
  apply (white_image_draws_nothing default_converter white_2x2 1);
    [simpl; lia | simpl; lia | ].
  intros x row _ _. simpl. lia.
Defined.

(** ** The program around the converter *)

(** The two ways [convert] ends. *)
Lemma convert_cases (lib : Library) (self : PolargraphConverter)
    (input_path output_path : string) (w : World) :
  match image_open lib (files w) input_path with
  | inr message =>
      convert lib self input_path output_path w
        = (print ("Loading image: " ++ input_path) w, Raised message)
  | inl pic =>
      exists svg_lines w',
        svg_document_lines self
          (enhance lib (grayscale lib pic) (contrast_factor self))
          = Some svg_lines /\
        convert lib self input_path output_path w = (w', Returned tt) /\
        files w' = write_text (files w) output_path
                     (String.concat newline svg_lines) /\
        stderr w' = stderr w /\
        List.length (stdout w') = (List.length (stdout w) + 9)%nat /\
        nth 0 (rev (stdout w')) ""%string
          = ("SVG saved to: " ++ output_path)%string
  end.
Proof.
  unfold convert, load_and_preprocess_image. cbn [files print].
  destruct (image_open lib (files w) input_path) as [pic | message];
    [ | reflexivity].
  cbv zeta.
  destruct (generate_svg_writes self
              (enhance lib (grayscale lib pic) (contrast_factor self))
              output_path (files w)) as (svg_lines & E & G).
  rewrite G. eexists. eexists. split; [exact E | ].
  split; [reflexivity | ]. cbn [files stdout stderr print].
  split; [reflexivity | ]. split; [reflexivity | ].
  split.
  - rewrite !length_app. simpl. lia.
  - rewrite rev_unit. reflexivity.
Qed.

(** X19. When the input cannot be opened or decoded, [convert] raises with
    the library's message after printing one line, and no file is written
    or changed. *)
Theorem convert_failure_writes_nothing (lib : Library)
    (self : PolargraphConverter) (input_path output_path message : string)
    (w : World) :
  image_open lib (files w) input_path = inr message ->
  snd (convert lib self input_path output_path w) = Raised message /\
  files (fst (convert lib self input_path output_path w)) = files w /\
  stdout (fst (convert lib self input_path output_path w))
    = stdout w ++ [("Loading image: " ++ input_path)%string] /\
  stderr (fst (convert lib self input_path output_path w)) = stderr w.
Proof.
  intros E. pose proof (convert_cases lib self input_path output_path w) as H.
  rewrite E in H. rewrite H. repeat split.
Qed.

Lemma convert_failure_writes_nothing_witness :
  snd (convert toy_library default_converter "notes.txt" "out.svg" toy_world)
    = Raised "cannot identify image file" /\
  files (fst (convert toy_library default_converter "notes.txt" "out.svg"
                toy_world)) = files toy_world /\
  stdout (fst (convert toy_library default_converter "notes.txt" "out.svg"
                 toy_world))
    = stdout toy_world ++ [("Loading image: " ++ "notes.txt")%string] /\
  stderr (fst (convert toy_library default_converter "notes.txt" "out.svg"
                 toy_world)) = stderr toy_world.
Proof.
  apply (convert_failure_writes_nothing toy_library default_converter
           "notes.txt" "out.svg" "cannot identify image file" toy_world).
  reflexivity.
Defined.

(** X20. When the input decodes, [convert] returns; the output file then
    holds the document of the grayscale, contrast-enhanced image, every
    other file is unchanged, nine lines were printed, the last of them
    SVG saved to: followed by the output path, and nothing went to the
    error stream. *)
Theorem convert_success (lib : Library) (self : PolargraphConverter)
    (input_path output_path : string) (w : World) (pic : picture lib) :
  image_open lib (files w) input_path = inl pic ->
  exists svg_lines,
    svg_document_lines self
      (enhance lib (grayscale lib pic) (contrast_factor self))
      = Some svg_lines /\
    snd (convert lib self input_path output_path w) = Returned tt /\
    files (fst (convert lib self input_path output_path w)) output_path
      = Some (String.concat newline svg_lines) /\
    (forall p, p <> output_path ->
       files (fst (convert lib self input_path output_path w)) p
         = files w p) /\
    List.length (stdout (fst (convert lib self input_path output_path w)))
      = (List.length (stdout w) + 9)%nat /\
    nth 0 (rev (stdout (fst (convert lib self input_path output_path w))))
        ""%string
      = ("SVG saved to: " ++ output_path)%string /\
    stderr (fst (convert lib self input_path output_path w)) = stderr w.
Proof.
  intros E. pose proof (convert_cases lib self input_path output_path w) as H.
  rewrite E in H.
  destruct H as (svg_lines & w' & Hdoc & -> & Hfiles & Herr & Hlen & Hlast).
  exists svg_lines. cbn [fst snd]. rewrite Hfiles.
  split; [exact Hdoc | ]. split; [reflexivity | ].
  split; [apply write_text_read | ].
  split; [ | split; [exact Hlen | split; [exact Hlast | exact Herr]]].
  intros p Hp. unfold write_text.
  destruct (String.eqb p output_path) eqn:Ep; [ | reflexivity].
  apply String.eqb_eq in Ep. contradiction.
Qed.

Lemma convert_success_witness :
  exists svg_lines,
    svg_document_lines default_converter
      (enhance toy_library (grayscale toy_library four_white)
         (contrast_factor default_converter))
      = Some svg_lines /\
    snd (convert toy_library default_converter "in.pgm" "out.svg" toy_world)
      = Returned tt /\
    files (fst (convert toy_library default_converter "in.pgm" "out.svg"
                  toy_world)) "out.svg"%string
      = Some (String.concat newline svg_lines) /\
    (forall p, p <> "out.svg"%string ->
       files (fst (convert toy_library default_converter "in.pgm" "out.svg"
                     toy_world)) p
         = files toy_world p) /\
    List.length
      (stdout (fst (convert toy_library default_converter "in.pgm" "out.svg"
                      toy_world)))
      = (List.length (stdout toy_world) + 9)%nat /\
    nth 0 (rev (stdout (fst (convert toy_library default_converter "in.pgm"
                               "out.svg" toy_world))))
        ""%string
      = ("SVG saved to: " ++ "out.svg")%string /\
    stderr (fst (convert toy_library default_converter "in.pgm" "out.svg"
                   toy_world)) = stderr toy_world.
Proof.
  apply (convert_success toy_library default_converter "in.pgm" "out.svg"
           toy_world four_white).
  reflexivity.
Defined.

(** X21. [main] ends with status 0 or 1.  If the input file is missing it
    ends with 1 having printed nothing and changed no file, with the line
    Error: Input file not found: and the path on the error stream.  If the
    file exists and opening it raises, it ends with 1 having changed no
    file, with the line Error during conversion: and the message on the
    error stream.  If it ends with 0, the input exists and decodes, the
    error stream is untouched and the output file holds a document. *)
Theorem main_exit_status (lib : Library) (args : Args) (w : World) :
  (snd (main lib args w) = 0%Z \/ snd (main lib args w) = 1%Z) /\
  (files w (input args) = None ->
   main lib args w
     = (print_stderr ("Error: Input file not found: " ++ input args) w, 1%Z))
  /\
  (forall message,
     files w (input args) <> None ->
     image_open lib (files w) (input args) = inr message ->
     snd (main lib args w) = 1%Z /\
     files (fst (main lib args w)) = files w /\
     stderr (fst (main lib args w))
       = stderr w ++ [("Error during conversion: " ++ message)%string]) /\
  (snd (main lib args w) = 0%Z ->
   files w (input args) <> None /\
   (exists pic, image_open lib (files w) (input args) = inl pic) /\
   stderr (fst (main lib args w)) = stderr w /\
   exists document,
     files (fst (main lib args w)) (output args) = Some document).
Proof.
  unfold main.
  destruct (files w (input args)) as [content | ] eqn:Efile.
  - pose proof (convert_cases lib
                  (mkConverter (arg_line_spacing args) (amplitude args)
                     (organic args) (contrast args)
                     (arg_white_threshold args))
                  (input args) (output args) w) as H.
    destruct (image_open lib (files w) (input args)) as [pic | message].
    + destruct H as (svg_lines & w' & _ & -> & Hfiles & Herr & _).
      cbn [fst snd]. split; [left; reflexivity | ].
      split; [discriminate | ]. split; [intros m _ Hm; discriminate | ].
      intros _. split; [discriminate | ].
      split; [exists pic; reflexivity | ]. split; [exact Herr | ].
      rewrite Hfiles. eexists. apply write_text_read.
    + rewrite H. cbn [fst snd print print_stderr files stderr].
      split; [right; reflexivity | ].
      split; [discriminate | ]. split; [ | discriminate].
      intros m _ Hm. injection Hm as <-. repeat split.
  - cbn [fst snd print_stderr files stderr].
    split; [right; reflexivity | ].
    split; [reflexivity | ]. split; [ | discriminate].
    intros m Hne. contradiction.
Qed.

(** ** The serializer as a whole *)

(** A value strictly within half a hundredth of n hundredths is printed
    with the digits of n. *)
Lemma format_2f_digits (v : R) (n : Z) :
  0 <= v -> IZR n - 1 / 2 < v * 100 < IZR n + 1 / 2 ->
  format_2f v = (str_nat (Z.to_nat (n / 100)) ++ "."
                   ++ two_digits (Z.to_nat (n mod 100)))%string.
Proof.
  intros Hv Hn. unfold format_2f, quantize_2f, render_2f.
  destruct (Rlt_dec v 0) as [H | _]; [lra | ].
  rewrite Rabs_pos_eq by exact Hv.
  replace (round_half_even (v * 100)) with n; [reflexivity | ].
  symmetry. destruct (Rle_lt_dec (IZR n) (v * 100)).
  - apply round_half_even_down. lra.
  - apply round_half_even_up. lra.
Qed.

Lemma format_2f_digits_negative (v : R) (n : Z) :
  v < 0 -> IZR n - 1 / 2 < - v * 100 < IZR n + 1 / 2 ->
  format_2f v = ("-" ++ str_nat (Z.to_nat (n / 100)) ++ "."
                   ++ two_digits (Z.to_nat (n mod 100)))%string.
Proof.
  intros Hv Hn. unfold format_2f, quantize_2f, render_2f.
  destruct (Rlt_dec v 0) as [_ | H]; [ | lra].
  rewrite Rabs_left by exact Hv.
  replace (round_half_even (- v * 100)) with n; [reflexivity | ].
  symmetry. destruct (Rle_lt_dec (IZR n) (- v * 100)).
  - apply round_half_even_down. lra.
  - apply round_half_even_up. lra.
Qed.

Lemma three_point_text :
  points_to_path_commands [(0%nat, 1.5); (1%nat, -0.126); (2%nat, 1.234)]
    = "M 0.00,1.50 L 1.00,-0.13 L 2.00,1.23"%string.
Proof.
  unfold points_to_path_commands, move_command, line_command.
  cbn [map String.concat fst snd].
  rewrite (format_2f_INR 0), (format_2f_INR 1), (format_2f_INR 2).
  rewrite (format_2f_digits 1.5 150) by lra.
  rewrite (format_2f_digits_negative (-0.126) 13) by lra.
  rewrite (format_2f_digits 1.234 123) by lra.
  reflexivity.
Qed.

(** C9. No points give the empty string; otherwise the result is one move
    command for the first point followed by one line command for each
    remaining point, separated by spaces; every coordinate is printed with
    exactly two fractional digits, and these are the digits of the
    coordinate: the text reads back as a number within half a hundredth of
    it, a value strictly within half a hundredth of n hundredths is printed
    with the digits of n, an integer is printed with two zeros, and the whole
    string reads back as one point per input point, in order.  The single
    point (0, 0.0) gives the text M 0.00,0.00. *)
Theorem points_to_path_commands_spec :
  points_to_path_commands [] = ""%string /\
  (forall (first : Point) (remaining : list Point),
     points_to_path_commands (first :: remaining) =
       String.concat " "
         (("M " ++ format_2f (INR (fst first)) ++ ","
                ++ format_2f (snd first))%string
          :: map (fun p : Point =>
                    ("L " ++ format_2f (INR (fst p)) ++ ","
                          ++ format_2f (snd p))%string)
                 remaining)) /\
  (forall (points : list Point) (q : Point),
     points <> [] ->
     points_to_path_commands (points ++ [q]) =
       (points_to_path_commands points ++ " L "
          ++ format_2f (INR (fst q)) ++ "," ++ format_2f (snd q))%string) /\
  (forall v : R, two_fractional_digits (format_2f v)) /\
  (forall v : R,
     exists q, parse_2f (format_2f v) = Some q /\
               Rabs (q - v) <= 1 / 200) /\
  (forall (v : R) (n : Z),
     0 <= v -> IZR n - 1 / 2 < v * 100 < IZR n + 1 / 2 ->
     format_2f v = (str_nat (Z.to_nat (n / 100)) ++ "."
                      ++ two_digits (Z.to_nat (n mod 100)))%string) /\
  (forall (v : R) (n : Z),
     v < 0 -> IZR n - 1 / 2 < - v * 100 < IZR n + 1 / 2 ->
     format_2f v = ("-" ++ str_nat (Z.to_nat (n / 100)) ++ "."
                      ++ two_digits (Z.to_nat (n mod 100)))%string) /\
  (forall n : nat, format_2f (INR n) = (str_nat n ++ ".00")%string) /\
  (forall points : list Point,
     exists decoded,
       parse_path (points_to_path_commands points) = Some decoded /\
       Forall2 (fun (p : Point) (q : R * R) =>
                  fst q = INR (fst p) /\ Rabs (snd q - snd p) <= 1 / 200)
               points decoded) /\
  points_to_path_commands [(0%nat, 0)] = "M 0.00,0.00"%string /\
  points_to_path_commands [(0%nat, 1.5); (1%nat, -0.126); (2%nat, 1.234)]
    = "M 0.00,1.50 L 1.00,-0.13 L 2.00,1.23"%string.
Proof.
  split; [reflexivity | ]. split; [reflexivity | ].
  split; [exact points_to_path_commands_snoc | ].
  split; [exact format_2f_shape | ].
  split.
  { intros v. eexists. split; [apply parse_2f_format_2f | ].
    apply value_2f_close. }
  split; [exact format_2f_digits | ].
  split; [exact format_2f_digits_negative | ].
  split; [exact format_2f_INR | ].
  split.
  { intros points. eexists. split; [apply parse_path_points | ].
    induction points as [ | p points IH]; cbn [map]; constructor;
      [ | exact IH].
    split; [reflexivity | apply value_2f_close]. }
  split; [exact origin_point_text | exact three_point_text].
Qed.
